(** * Linkin URL shortener: a shallow embedding of the state engine

    The development follows the layout of the repository:
    - [Config]      constants of [config.js];
    - [Realm]       what a plain JavaScript object inherits;
    - [Db]          the in-memory cache, the debounced write-back
                    ([bufferedSave]) and the sweeper ([recycle]) of [db.js];
    - [Middleware]  the per-client limiter ([rateLimiter]) of [middleware.js];
    - [Routes]      the three handlers of [routes.js];
    - [Server]      the event loop that interleaves requests, the hourly
                    sweep and the timers phase ([app.js]).

    Time stamps are milliseconds since the epoch, as [Date.now()] returns
    them.  The code stores them as ISO strings ([toISOString]) and reads
    them back with [new Date(s).getTime()]; that round trip is the identity
    on millisecond values, so a stored stamp is modelled by its [Z] value.
    Counters ([clicks], [count]) are integers; the code holds them in
    doubles, which are exact far beyond any count a process reaches.

    [dbCache] and [rateLimitStore] are plain objects used as dictionaries.
    Their own properties are a finite map keyed by strings; a key they do
    not own is looked up in [Object.prototype], as [Realm] describes.

    A handler reads the clock more than once ([Date.now()] and
    [new Date()]); the functions below take the reads as separate
    arguments, and a turn of the event loop of [Server] supplies them in
    program order.  [nanoid(6)] is an input of the handler that calls
    it. *)

From Stdlib Require Import ZArith Lia.
From stdpp Require Import gmap strings list fin_maps sorting.

Local Open Scope Z_scope.

(** ** config.js *)
Module Config.
Definition RATE_LIMIT : Z := 5.
Definition RATE_WINDOW_MS : Z := 60 * 60 * 1000.
Definition EXPIRY_MS : Z := 168 * 60 * 60 * 1000.
Definition LAST_ACCESS_LIMIT : Z := 72 * 60 * 60 * 1000.
(** The literal delay passed to [setTimeout] in [bufferedSave]. *)
Definition FLUSH_DELAY_MS : Z := 200.
End Config.
Import Config.

(** ** Property lookup on a plain object

    [obj[key]] on an object created by [{}] or by [JSON.parse] returns the
    own property [key] when there is one, and otherwise what
    [Object.prototype] holds under [key]. *)
Module Realm.

(** The own property names of [Object.prototype] when the process
    starts. *)
Definition builtinMembers : list string :=
  ["constructor"; "__defineGetter__"; "__defineSetter__"; "hasOwnProperty";
   "__lookupGetter__"; "__lookupSetter__"; "isPrototypeOf";
   "propertyIsEnumerable"; "toString"; "valueOf"; "__proto__";
   "toLocaleString"].

(** What the lookup of a key that is not an own property finds.
    - [NoMember]: [undefined], or the [NaN] that [count++] or [clicks++]
      left on [Object.prototype]; both are falsy.
    - [ObjectMember]: one of the built-in functions, or, for [__proto__],
      [Object.prototype] itself: a truthy object, none of whose
      [windowStart], [expires], [originalUrl] and [created] is ever
      defined, and whose [count] and [clicks] are [undefined] or [NaN].
    - [StringMember]: the ISO string that a [GET] on [__proto__] assigned
      to [Object.prototype.lastAccessed]: a truthy primitive, on which an
      assignment throws a [TypeError] (the files are ES modules, hence in
      strict mode). *)
Inductive Inherited := NoMember | ObjectMember | StringMember.

#[export] Instance Inherited_eq_dec : EqDecision Inherited.
Proof. solve_decision. Defined.

(** [stamped]: has [Object.prototype.lastAccessed] been assigned. *)
Definition inherited (stamped : bool) (key : string) : Inherited :=
  if bool_decide (key ∈ builtinMembers) then ObjectMember
  else if stamped && bool_decide (key = "lastAccessed") then StringMember
  else NoMember.

End Realm.
Import Realm.

(** ** db.js *)
Module Db.

(** One value of [dbCache]:
    [{ originalUrl, created, expires, lastAccessed, clicks }]. *)
Record Entry := mkEntry {
  originalUrl : string;
  created : Z;
  expires : Z;
  lastAccessed : Z;
  clicks : Z
}.

#[export] Instance Entry_eq_dec : EqDecision Entry.
Proof. solve_decision. Defined.

(** The module-level variables of [db.js] together with the pieces of the
    environment they talk to: the timeouts registered with the event loop,
    the file [DB_FILE], and the prototype the cache inherits from.
    - [dbCache]    the own properties of the in-memory cache;
    - [saveTimer]  [None] for [null], [Some due] for the handle returned
                   by [setTimeout] (identified by its due time);
    - [timers]     due times of the [setTimeout] callbacks that were
                   registered and have not run yet;
    - [dbFile]     the successive contents given to [writeFileSync],
                   most recent first;
    - [saveCalls]  history variable: how many times [bufferedSave] has
                   been entered.  No code reads it;
    - [prototypeStamped]  whether [Object.prototype.lastAccessed] has been
                   assigned (see [Realm.inherited]). *)
Record State := mkState {
  dbCache : gmap string Entry;
  saveTimer : option Z;
  timers : list Z;
  dbFile : list (gmap string Entry);
  saveCalls : nat;
  prototypeStamped : bool
}.

Definition initial : State :=
  {| dbCache := ∅; saveTimer := None; timers := []; dbFile := [];
     saveCalls := 0; prototypeStamped := false |}.

Definition setCache (c : gmap string Entry) (st : State) : State :=
  {| dbCache := c; saveTimer := saveTimer st; timers := timers st;
     dbFile := dbFile st; saveCalls := saveCalls st;
     prototypeStamped := prototypeStamped st |}.

(** [bufferedSave]: return at once when [saveTimer] is set, otherwise
    register the flush callback to run [FLUSH_DELAY_MS] from [now]. *)
Definition bufferedSave (now : Z) (st : State) : State :=
  match saveTimer st with
  | Some _ =>
      {| dbCache := dbCache st; saveTimer := saveTimer st;
         timers := timers st; dbFile := dbFile st;
         saveCalls := S (saveCalls st);
         prototypeStamped := prototypeStamped st |}
  | None =>
      {| dbCache := dbCache st;
         saveTimer := Some (now + FLUSH_DELAY_MS);
         timers := timers st ++ [now + FLUSH_DELAY_MS];
         dbFile := dbFile st;
         saveCalls := S (saveCalls st);
         prototypeStamped := prototypeStamped st |}
  end.

(** The arrow function given to [setTimeout]:
    [writeFileSync(DB_FILE, JSON.stringify(dbCache)); saveTimer = null].
    [JSON.stringify] writes the own properties. *)
Definition flush (st : State) : State :=
  {| dbCache := dbCache st; saveTimer := None; timers := timers st;
     dbFile := dbCache st :: dbFile st; saveCalls := saveCalls st;
     prototypeStamped := prototypeStamped st |}.

(** The timers phase of the event loop at time [now]: every registered
    callback whose delay has elapsed runs once and is removed. *)
Definition dueNow (now : Z) (due : Z) : bool := bool_decide (due <= now).

Definition runTimers (now : Z) (st : State) : State :=
  let ready := filter (λ d, dueNow now d = true) (timers st) in
  let later := filter (λ d, dueNow now d = false) (timers st) in
  foldl (λ s _, flush s)
        {| dbCache := dbCache st; saveTimer := saveTimer st;
           timers := later; dbFile := dbFile st;
           saveCalls := saveCalls st;
           prototypeStamped := prototypeStamped st |}
        ready.

(** The condition of the [if] in the loop of [recycle]. *)
Definition stale (now : Z) (entry : Entry) : bool :=
  bool_decide (now > expires entry)
  || bool_decide (now - lastAccessed entry > LAST_ACCESS_LIMIT).

(** One iteration of [for (const [id, entry] of Object.entries(dbCache))],
    on the pair of the cache and the local [changed]. *)
Definition recycleStep (now : Z) (acc : gmap string Entry * bool)
    (kv : string * Entry) : gmap string Entry * bool :=
  if stale now kv.2 then (delete kv.1 acc.1, true) else acc.

(** [recycle]: [Object.entries] takes a snapshot of the own entries, the
    loop deletes from the live cache, and [bufferedSave] is called after
    the loop when [changed] is set. *)
Definition recycle (now : Z) (st : State) : State :=
  let r := foldl (recycleStep now) (dbCache st, false)
                 (map_to_list (dbCache st)) in
  if r.2 then bufferedSave now (setCache r.1 st) else setCache r.1 st.

(** [loadDB]: when [DB_FILE] exists its parsed content replaces the cache,
    otherwise the cache stays as it is.  [file] is the content of the file,
    [None] when [existsSync] answers false; a content is the mapping that
    [JSON.stringify] wrote, which [JSON.parse] gives back. *)
Definition loadDB (file : option (gmap string Entry)) (st : State) : State :=
  match file with
  | Some c => setCache c st
  | None => st
  end.

End Db.
Import Db.

(** ** middleware.js *)
Module Middleware.

(** One value of [rateLimitStore]: [{ count, windowStart }]. *)
Record RateWindow := mkWindow {
  count : Z;
  windowStart : Z
}.

#[export] Instance RateWindow_eq_dec : EqDecision RateWindow.
Proof. solve_decision. Defined.

(** What the middleware does with the request: call [next()], answer with
    status 429, or throw (Express then answers 500). *)
Inductive Verdict := Next | Status429 | Throws.

#[export] Instance Verdict_eq_dec : EqDecision Verdict.
Proof. solve_decision. Defined.

(** [rateLimiter].  [now] is the value of [Date.now()] at the top of the
    function and [stamp] the value of [new Date()] in the reset branch;
    [stamped] says what [rateLimitStore] inherits.

    With an own window the three branches are those of the source.  With
    none, [record] is what the store inherits under [ip]:
    - nothing: [!record] holds and a window is opened;
    - an object: [record.windowStart] is [undefined], so the difference is
      [NaN] and the reset branch is not taken; [record.count] is
      [undefined] or [NaN], so the limit test fails too; [record.count++]
      writes the inherited object, not the store, and [next()] is called;
    - a string: both tests fail in the same way and [record.count++]
      throws. *)
Definition rateLimiter (stamped : bool) (now stamp : Z) (ip : string)
    (store : gmap string RateWindow) : gmap string RateWindow * Verdict :=
  match store !! ip with
  | Some record =>
      if bool_decide (now - windowStart record > RATE_WINDOW_MS)
      then (<[ip := mkWindow 1 stamp]> store, Next)
      else if bool_decide (count record >= RATE_LIMIT)
      then (store, Status429)
      else (<[ip := mkWindow (count record + 1) (windowStart record)]> store,
            Next)
  | None =>
      match inherited stamped ip with
      | NoMember => (<[ip := mkWindow 1 stamp]> store, Next)
      | ObjectMember => (store, Next)
      | StringMember => (store, Throws)
      end
  end.

End Middleware.
Import Middleware.

(** ** routes.js *)
Module Routes.

(** The answers the handlers send. *)
Inductive Response :=
| Created201 (id : string) (expiresAt : Z)
    (* 201 { shortUrl: baseUrl/id, expires } *)
| BadRequest400
    (* 400 { error: url is required } *)
| TooMany429
    (* 429, sent by the middleware *)
| NotFound404
    (* 404 with not-found.html *)
| Redirect302 (location : string)
| Stats200 (id : string) (url : string)
    (nclicks ncreated nexpires nlastAccessed : Z)
| RedirectUndefined302
    (* res.redirect(302, undefined): the entry is an inherited object *)
| StatsOfMember200 (id : string) (nlastAccessed : Z)
    (* res.json of an inherited object: originalUrl, created and expires are
       undefined, clicks is NaN *)
| Error500.
    (* the handler or the middleware threw *)

#[export] Instance Response_eq_dec : EqDecision Response.
Proof. solve_decision. Defined.

(** The handler of [POST /shorten], after the middleware let the request
    through.  [stamp] is the value of [new Date()] that becomes [created]
    and [lastAccessed], [now] the value of [Date.now()] in the computation
    of [expires], [id] the string [nanoid(6)] returned, [url] the field of
    the request body. *)
Definition shorten (stamp now : Z) (id url : string) (st : State)
    : State * Response :=
  if bool_decide (url = "")
  then (st, BadRequest400)
  else
    let expires := now + EXPIRY_MS in
    let entry := mkEntry url stamp expires stamp 0 in
    (bufferedSave now (setCache (<[id := entry]> (dbCache st)) st),
     Created201 id expires).

(** [entry.clicks++; entry.lastAccessed = new Date().toISOString()] on the
    object held by the cache. *)
Definition touch (stamp : Z) (entry : Entry) : Entry :=
  mkEntry (originalUrl entry) (created entry) (expires entry) stamp
          (clicks entry + 1).

(** The same two statements on an inherited object: they write that
    object.  Only the assignment of [lastAccessed] to [Object.prototype],
    reached through the key [__proto__], shows in a later lookup. *)
Definition touchMember (id : string) (st : State) : State :=
  {| dbCache := dbCache st; saveTimer := saveTimer st; timers := timers st;
     dbFile := dbFile st; saveCalls := saveCalls st;
     prototypeStamped :=
       prototypeStamped st || bool_decide (id = "__proto__") |}.

(** What [const entry = dbCache[req.params.id]] and the test after it come
    to. *)
Inductive Found :=
| Missing                 (* falsy, or expired: the 404 branch *)
| Stored (entry : Entry)  (* an own entry, after the update *)
| Member                  (* an inherited object, after the update *)
| Thrown.                 (* an inherited string: the update throws *)

(** The part the two [GET] handlers share.  With an own entry: drop it when
    [expires] has passed, otherwise count the access.  With none, the entry
    is what the cache inherits under [id]:
    - nothing: the 404 branch, and nothing to delete;
    - an object: [entry.expires] is [undefined], so the comparison with
      [NaN] fails and the access is counted on the inherited object,
      followed by [bufferedSave];
    - a string: the comparison fails in the same way and [entry.clicks++]
      throws, before [bufferedSave]. *)
Definition access (now stamp : Z) (id : string) (st : State)
    : State * Found :=
  match dbCache st !! id with
  | Some entry =>
      if bool_decide (now > expires entry)
      then (setCache (delete id (dbCache st)) st, Missing)
      else
        let entry' := touch stamp entry in
        (bufferedSave now (setCache (<[id := entry']> (dbCache st)) st),
         Stored entry')
  | None =>
      match inherited (prototypeStamped st) id with
      | NoMember => (st, Missing)
      | ObjectMember => (bufferedSave now (touchMember id st), Member)
      | StringMember => (st, Thrown)
      end
  end.

(** [GET /:id]. *)
Definition getId (now stamp : Z) (id : string) (st : State)
    : State * Response :=
  match access now stamp id st with
  | (st', Missing) => (st', NotFound404)
  | (st', Stored entry) => (st', Redirect302 (originalUrl entry))
  | (st', Member) => (st', RedirectUndefined302)
  | (st', Thrown) => (st', Error500)
  end.

(** [GET /:id/stats]. *)
Definition getStats (now stamp : Z) (id : string) (st : State)
    : State * Response :=
  match access now stamp id st with
  | (st', Missing) => (st', NotFound404)
  | (st', Stored entry) =>
      (st', Stats200 id (originalUrl entry) (clicks entry) (created entry)
                     (expires entry) (lastAccessed entry))
  | (st', Member) => (st', StatsOfMember200 id stamp)
  | (st', Thrown) => (st', Error500)
  end.

End Routes.
Import Routes.

(** ** app.js: the process *)
Module Server.

Record State := mkServer {
  db : Db.State;
  rateLimitStore : gmap string RateWindow
}.

Definition initial : State :=
  {| db := Db.initial; rateLimitStore := ∅ |}.

(** What the event loop can run next. *)
Inductive Event :=
| PostShorten (ip : string) (url : string) (nanoid : string)
| GetId (id : string)
| GetStats (id : string)
| Sweep          (* the [setInterval(recycle, ...)] callback *)
| Timers.        (* the timers phase: due [setTimeout] callbacks *)

(** The clock reads of one turn, in program order.  [POST /shorten] makes
    four: [Date.now()] and [new Date()] in the middleware, then
    [new Date()] and [Date.now()] in the handler.  A [GET] makes the first
    two, the sweep and the timers phase the first. *)
Record Clock := mkClock {
  read1 : Z;
  read2 : Z;
  read3 : Z;
  read4 : Z
}.

(** The clock does not run backwards during the turn. *)
Definition inOrder (clk : Clock) : Prop :=
  read1 clk <= read2 clk ∧ read2 clk <= read3 clk ∧ read3 clk <= read4 clk.

(** A turn during which the clock does not move. *)
Definition instant (now : Z) : Clock := mkClock now now now now.

(** One turn of the event loop. *)
Definition step (clk : Clock) (ev : Event) (sv : State)
    : State * option Response :=
  match ev with
  | PostShorten ip url id =>
      match rateLimiter (prototypeStamped (db sv)) (read1 clk) (read2 clk) ip
                        (rateLimitStore sv) with
      | (store', Status429) => (mkServer (db sv) store', Some TooMany429)
      | (store', Throws) => (mkServer (db sv) store', Some Error500)
      | (store', Next) =>
          let r := shorten (read3 clk) (read4 clk) id url (db sv) in
          (mkServer r.1 store', Some r.2)
      end
  | GetId id =>
      let r := getId (read1 clk) (read2 clk) id (db sv) in
      (mkServer r.1 (rateLimitStore sv), Some r.2)
  | GetStats id =>
      let r := getStats (read1 clk) (read2 clk) id (db sv) in
      (mkServer r.1 (rateLimitStore sv), Some r.2)
  | Sweep =>
      (mkServer (recycle (read1 clk) (db sv)) (rateLimitStore sv), None)
  | Timers =>
      (mkServer (runTimers (read1 clk) (db sv)) (rateLimitStore sv), None)
  end.

(** A run: the events in the order the loop takes them, each with the
    clock reads of its turn.  The result is the final state and the
    answers. *)
Fixpoint run (evs : list (Clock * Event)) (sv : State)
    : State * list (option Response) :=
  match evs with
  | [] => (sv, [])
  | (clk, ev) :: rest =>
      let r := step clk ev sv in
      let rs := run rest r.1 in
      (rs.1, r.2 :: rs.2)
  end.

(** The states the process can be in: it starts with an empty cache (no
    [db.json]) and the clock never runs backwards, neither during a turn
    nor between two turns.  [reachable now sv]: [sv] is the state after a
    turn whose last clock read was [now]. *)
Inductive reachable : Z → State → Prop :=
| reach_start now : reachable now initial
| reach_step now sv clk ev :
    reachable now sv → now <= read1 clk → inOrder clk →
    reachable (read4 clk) (step clk ev sv).1.

End Server.
Import Server.

(** ** Drivers used to state properties of call sequences *)

(** A key under which a plain object inherits nothing truthy, whatever has
    been written to [Object.prototype]: the lookup of such a key finds the
    own property or nothing. *)
Definition plainKey (key : string) : Prop := inherited true key = NoMember.

(** A sequence of calls to the limiter, each with its two clock reads and
    the client it comes from; the result is the final store and the log of
    the calls (the first read, the client, the verdict). *)
Fixpoint limiterRun (stamped : bool) (cs : list (Z * Z * string))
    (store : gmap string RateWindow)
    : gmap string RateWindow * list (Z * string * Verdict) :=
  match cs with
  | [] => (store, [])
  | (now, stamp, ip) :: rest =>
      let r := rateLimiter stamped now stamp ip store in
      let rs := limiterRun stamped rest r.1 in
      (rs.1, (now, ip, r.2) :: rs.2)
  end.

(** Consecutive calls of one client, each at one instant. *)
Definition consecutive (stamped : bool) (ip : string) (ts : list Z)
    (store : gmap string RateWindow)
    : gmap string RateWindow * list (Z * string * Verdict) :=
  limiterRun stamped ((λ t, (t, t, ip)) <$> ts) store.

(** Does a logged call count for client [ip] in the interval [a, b]: it is
    the client's, it was let through, and it lies in the interval. *)
Definition counted (ip : string) (a b : Z) (x : Z * string * Verdict) : bool :=
  bool_decide (x.1.2 = ip) && bool_decide (x.2 = Next)
  && bool_decide (a <= x.1.1 <= b).

Fixpoint admittedIn (ip : string) (a b : Z)
    (log : list (Z * string * Verdict)) : nat :=
  match log with
  | [] => 0%nat
  | x :: rest =>
      if counted ip a b x then S (admittedIn ip a b rest)
      else admittedIn ip a b rest
  end.

(** No own window and nothing inherited, or an own window that is stale at
    [now]: the next call opens a new window. *)
Definition opensWindow (stamped : bool) (now : Z) (ip : string)
    (store : gmap string RateWindow) : Prop :=
  match store !! ip with
  | None => inherited stamped ip = NoMember
  | Some w => now - windowStart w > RATE_WINDOW_MS
  end.

(** The bounds every stored window keeps. *)
Definition limiterInv (store : gmap string RateWindow) : Prop :=
  ∀ ip w, store !! ip = Some w → 1 <= count w <= RATE_LIMIT.

(** How many more calls of [ip] can be let through at instants of [a, b],
    once the clock has reached [a]: a window opened before [a] can still be
    used up and then be replaced once; a window opened at or after [a]
    outlives the interval. *)
Definition budget (ip : string) (a : Z) (store : gmap string RateWindow) : Z :=
  match store !! ip with
  | None => RATE_LIMIT
  | Some w =>
      if bool_decide (windowStart w < a)
      then (RATE_LIMIT - count w) + RATE_LIMIT
      else RATE_LIMIT - count w
  end.

(** A burst across two windows of one client: the window opens at 0, is used
    up just before it ends, and the next one opens [RATE_WINDOW_MS + 1]
    after the first call. *)
Definition burstCalls : list (Z * Z * string) :=
  [(0, 0, "10.0.0.1"); (2, 2, "10.0.0.1"); (2, 2, "10.0.0.1");
   (3, 3, "10.0.0.1"); (3, 3, "10.0.0.1"); (4, 4, "10.0.0.1");
   (3600001, 3600001, "10.0.0.1"); (3600001, 3600001, "10.0.0.1");
   (3600001, 3600001, "10.0.0.1"); (3600001, 3600001, "10.0.0.1");
   (3600001, 3600001, "10.0.0.1"); (3600001, 3600001, "10.0.0.1")].

(** Eleven posts in eleven milliseconds of a client whose address is the
    name of an inherited member. *)
Definition protoCalls : list (Z * Z * string) :=
  (λ n, (Z.of_nat n, Z.of_nat n, "__proto__")) <$> seq 0 11.

(** The liveness predicate as the specification words it: a record is live
    iff [now <= expiresAt] and [now - lastAccessedAt <= IdleTTL]. *)
Definition live (now : Z) (entry : Entry) : Prop :=
  now <= expires entry ∧ now - lastAccessed entry <= LAST_ACCESS_LIMIT.

#[global] Instance live_dec now entry : Decision (live now entry).
Proof. unfold live. apply _. Defined.

(** A flush is scheduled and has not run: [saveTimer] holds the handle of
    the one registered callback. *)
Definition flushPending (due : Z) (st : Db.State) : Prop :=
  saveTimer st = Some due ∧ timers st = [due].

(** Several calls of [bufferedSave] in a row, at the given instants. *)
Definition bufferedSaves (nows : list Z) (st : Db.State) : Db.State :=
  foldl (λ s now, bufferedSave now s) st nows.

(** The two record invariants as the data model states them. *)
Definition entryOk (entry : Entry) : Prop :=
  expires entry = created entry + EXPIRY_MS
  ∧ lastAccessed entry >= created entry.

(** What the code keeps of them: the expiry is computed from a clock read
    that follows the one that gives [created]. *)
Definition entryKept (entry : Entry) : Prop :=
  expires entry >= created entry + EXPIRY_MS
  ∧ lastAccessed entry >= created entry.

(** The event is a [POST /shorten] for which [nanoid] returns [id]. *)
Definition creates (id : string) (ev : Event) : Prop :=
  match ev with
  | PostShorten _ _ id' => id' = id
  | _ => False
  end.

(** Sample data: a record created at 0 and never accessed, and a cache that
    holds it. *)
Definition sampleEntry : Entry :=
  mkEntry "https://example.com" 0 EXPIRY_MS 0 0.

Definition sampleState : Db.State :=
  setCache {["abc123" := sampleEntry]} Db.initial.

(** The record invariants together with what carries them through a run:
    no stored access lies after the last clock read [now]. *)
Definition cacheInv (now : Z) (m : gmap string Entry) : Prop :=
  map_Forall (λ _ e, entryKept e ∧ lastAccessed e <= now) m.

(** [saveTimer] is set exactly while one flush callback is registered. *)
Definition timerInv (st : Db.State) : Prop :=
  timers st = match saveTimer st with Some due => [due] | None => [] end.

(** ** Further drivers *)

(** The calls a run makes to the limiter: one for every [POST /shorten],
    with the two clock reads of the middleware and for its client. *)
Definition postCalls (evs : list (Clock * Event)) : list (Z * Z * string) :=
  omap (λ tev, match tev.2 with
               | PostShorten ip _ _ => Some (read1 tev.1, read2 tev.1, ip)
               | _ => None
               end) evs.

(** Several accesses to one id in a row, at the given instants. *)
Definition accesses (id : string) (ts : list Z) (st : Db.State) : Db.State :=
  foldl (λ s t, (access t t id s).1) st ts.

(** What [DB_FILE] holds: the last content written, if any. *)
Definition fileContent (st : Db.State) : option (gmap string Entry) :=
  head (dbFile st).

(** The process is stopped and started again: the module variables start
    afresh ([dbCache = {}], [saveTimer = null], no timeout registered, an
    empty [rateLimitStore]) in a new realm, the file is what it was, and
    [loadDB] runs. *)
Definition restart (sv : Server.State) : Server.State :=
  mkServer
    (loadDB (fileContent (db sv))
            {| dbCache := ∅; saveTimer := None; timers := [];
               dbFile := dbFile (db sv); saveCalls := 0;
               prototypeStamped := false |})
    ∅.

(** While no flush is pending, the cache and the file differ only by
    entries that were in the file and had expired before [now]. *)
Definition quiescentInv (now : Z) (st : Db.State) : Prop :=
  saveTimer st = None →
  (∀ id e, dbCache st !! id = Some e →
           default ∅ (fileContent st) !! id = Some e)
  ∧ (∀ id e, default ∅ (fileContent st) !! id = Some e →
             dbCache st !! id = None → expires e < now).

(** After a sweep at [s]: no entry is idle for more than
    [LAST_ACCESS_LIMIT] at [s], and none had expired at [s]. *)
Definition sweptAt (s : Z) (m : gmap string Entry) : Prop :=
  map_Forall (λ _ e, s - lastAccessed e <= LAST_ACCESS_LIMIT ∧ s <= expires e) m.

(** The state of the write-back between two timers phases, for a run that
    starts with no flush pending, a file history [F0] and [c0] calls of
    [bufferedSave]: nothing is written, and a flush is registered, due by
    [T], exactly when [bufferedSave] has been called since. *)
Definition awaitingFlush (T : Z) (F0 : list (gmap string Entry)) (c0 : nat)
    (st : Db.State) : Prop :=
  dbFile st = F0 ∧ timerInv st
  ∧ match saveTimer st with
    | Some due => due <= T ∧ (c0 < saveCalls st)%nat
    | None => saveCalls st = c0
    end.

(** Sample data: a cache with the idle sample record and a record that was
    accessed later. *)
Definition sampleCache : gmap string Entry :=
  {["abc123" := sampleEntry;
    "xyz789" := mkEntry "https://example.org" 1000 (1000 + EXPIRY_MS) 200000000 4]}.

(** * Properties of the limiter *)

Section Limiter.
Implicit Types (store : gmap string RateWindow) (ip : string) (w : RateWindow)
  (stamped : bool).

Lemma rateLimiter_open stamped now stamp ip store :
  opensWindow stamped now ip store →
  rateLimiter stamped now stamp ip store
  = (<[ip := mkWindow 1 stamp]> store, Next).
Proof.
  unfold opensWindow, rateLimiter. destruct (store !! ip) as [w|].
  - intros Hst. by rewrite bool_decide_eq_true_2.
  - by intros ->.
Qed.

Lemma rateLimiter_within stamped now stamp ip store w :
  store !! ip = Some w →
  now - windowStart w <= RATE_WINDOW_MS →
  count w < RATE_LIMIT →
  rateLimiter stamped now stamp ip store
  = (<[ip := mkWindow (count w + 1) (windowStart w)]> store, Next).
Proof.
  intros Hw Hin Hc. unfold rateLimiter. rewrite Hw.
  rewrite bool_decide_eq_false_2 by lia.
  by rewrite bool_decide_eq_false_2 by lia.
Qed.

Lemma rateLimiter_full stamped now stamp ip store w :
  store !! ip = Some w →
  now - windowStart w <= RATE_WINDOW_MS →
  count w >= RATE_LIMIT →
  rateLimiter stamped now stamp ip store = (store, Status429).
Proof.
  intros Hw Hin Hc. unfold rateLimiter. rewrite Hw.
  rewrite bool_decide_eq_false_2 by lia.
  by rewrite bool_decide_eq_true_2 by lia.
Qed.

Lemma rateLimiter_member stamped now stamp ip store :
  store !! ip = None →
  inherited stamped ip = ObjectMember →
  rateLimiter stamped now stamp ip store = (store, Next).
Proof. intros Hw Hi. unfold rateLimiter. by rewrite Hw, Hi. Qed.

(** The outcomes of a call, read off the window of the caller and off what
    the store inherits under its key. *)
Lemma rateLimiter_cases stamped now stamp ip store :
  (opensWindow stamped now ip store
   ∧ rateLimiter stamped now stamp ip store
     = (<[ip := mkWindow 1 stamp]> store, Next))
  ∨ (∃ w, store !! ip = Some w ∧ now - windowStart w <= RATE_WINDOW_MS
       ∧ ((count w < RATE_LIMIT
           ∧ rateLimiter stamped now stamp ip store
             = (<[ip := mkWindow (count w + 1) (windowStart w)]> store, Next))
          ∨ (count w >= RATE_LIMIT
             ∧ rateLimiter stamped now stamp ip store = (store, Status429))))
  ∨ (store !! ip = None
     ∧ ((inherited stamped ip = ObjectMember
         ∧ rateLimiter stamped now stamp ip store = (store, Next))
        ∨ (inherited stamped ip = StringMember
           ∧ rateLimiter stamped now stamp ip store = (store, Throws)))).
Proof.
  destruct (store !! ip) as [w|] eqn:Hw.
  - destruct (decide (now - windowStart w > RATE_WINDOW_MS)) as [Hs|Hs].
    + left.
      assert (opensWindow stamped now ip store)
        by (by unfold opensWindow; rewrite Hw).
      split; [done|]. by apply rateLimiter_open.
    + right. left. exists w. split; [done|]. split; [lia|].
      destruct (decide (count w < RATE_LIMIT)).
      * left. split; [done|]. apply rateLimiter_within; [done|lia|done].
      * right. split; [lia|].
        apply (rateLimiter_full _ _ _ _ _ w); [done|lia|lia].
  - destruct (inherited stamped ip) eqn:Hi.
    + left.
      assert (opensWindow stamped now ip store)
        by (by unfold opensWindow; rewrite Hw).
      split; [done|]. by apply rateLimiter_open.
    + right. right. split; [done|]. left. split; [done|].
      by apply rateLimiter_member.
    + right. right. split; [done|]. right. split; [done|].
      unfold rateLimiter. by rewrite Hw, Hi.
Qed.

(** A call never touches the window of another client. *)
Lemma rateLimiter_other stamped now stamp ip ip' store :
  ip ≠ ip' → (rateLimiter stamped now stamp ip store).1 !! ip' = store !! ip'.
Proof.
  intros Hne.
  destruct (rateLimiter_cases stamped now stamp ip store)
    as [[_ ->]|[(w & _ & _ & [[_ ->]|[_ ->]])|(_ & [[_ ->]|[_ ->]])]]; simpl;
    by rewrite ?lookup_insert_ne.
Qed.

Lemma rateLimiter_inv stamped now stamp ip store :
  limiterInv store → limiterInv (rateLimiter stamped now stamp ip store).1.
Proof.
  intros Hinv ip' w'.
  destruct (decide (ip = ip')) as [<-|Hne];
    [|rewrite rateLimiter_other by done; apply Hinv].
  destruct (rateLimiter_cases stamped now stamp ip store)
    as [[_ ->]|[(w & Hw & _ & [[Hc ->]|[_ ->]])|(_ & [[_ ->]|[_ ->]])]]; simpl.
  - rewrite lookup_insert_eq. intros [= <-]. simpl. unfold RATE_LIMIT. lia.
  - rewrite lookup_insert_eq. intros [= <-]. simpl.
    specialize (Hinv _ _ Hw). lia.
  - apply Hinv.
  - apply Hinv.
  - apply Hinv.
Qed.

(** Six characters, as [nanoid(6)] returns them, never name an inherited
    member. *)
Lemma nanoid_plainKey key : String.length key = 6%nat → plainKey key.
Proof.
  intros Hlen. unfold plainKey, inherited.
  rewrite bool_decide_eq_false_2.
  - rewrite bool_decide_eq_false_2; [done|]. by intros ->.
  - unfold builtinMembers. rewrite !elem_of_cons, elem_of_nil.
    intros H. repeat (destruct H as [->|H]; [discriminate Hlen|]). done.
Qed.

Lemma plainKey_inherited stamped key :
  plainKey key → inherited stamped key = NoMember.
Proof.
  unfold plainKey, inherited. case_bool_decide; [done|].
  destruct stamped; [done|]. done.
Qed.

End Limiter.

Section LimiterRuns.
Implicit Types (store : gmap string RateWindow) (ip : string) (w : RateWindow)
  (stamped : bool).

(** Calls that stay inside the current window and under the limit are all
    let through and only move the counter. *)
Lemma consecutive_within stamped ip ts : ∀ store w,
  store !! ip = Some w →
  Forall (λ t, t - windowStart w <= RATE_WINDOW_MS) ts →
  count w + Z.of_nat (length ts) <= RATE_LIMIT →
  consecutive stamped ip ts store
  = (<[ip := mkWindow (count w + Z.of_nat (length ts)) (windowStart w)]> store,
     (λ t, (t, ip, Next)) <$> ts).
Proof.
  unfold consecutive. induction ts as [|t ts IH]; intros store w Hw Hin Hc.
  - simpl. rewrite Z.add_0_r. destruct w. by rewrite insert_id.
  - apply Forall_cons in Hin as [Ht Hin]. cbn [fmap list_fmap limiterRun].
    cbn [length] in Hc.
    rewrite (rateLimiter_within _ _ _ _ _ w) by (done || lia). cbn [fst snd].
    rewrite (IH _ (mkWindow (count w + 1) (windowStart w)));
      [|by rewrite lookup_insert_eq|done|simpl; lia].
    cbn [count windowStart fst snd]. rewrite insert_insert_eq.
    do 3 f_equal. cbn [length]. lia.
Qed.

(** Calls after the interval do not count. *)
Lemma admittedIn_after stamped ip a b cs : ∀ store,
  Forall (λ c, b < c.1.1) cs →
  admittedIn ip a b (limiterRun stamped cs store).2 = 0%nat.
Proof.
  induction cs as [|[[t s] i] cs IH]; intros store Hcs; [done|].
  apply Forall_cons in Hcs as [Ht Hcs]. simpl in Ht.
  cbn [limiterRun snd admittedIn]. unfold counted. cbn [fst snd].
  rewrite (bool_decide_eq_false_2 (a <= t <= b)) by lia.
  rewrite andb_false_r. by apply IH.
Qed.

Lemma budget_bound ip a store :
  limiterInv store → budget ip a store <= 2 * RATE_LIMIT - 1.
Proof.
  intros Hinv. unfold budget. destruct (store !! ip) as [w|] eqn:Hw.
  - specialize (Hinv _ _ Hw). case_bool_decide; lia.
  - unfold RATE_LIMIT. lia.
Qed.

Lemma admittedIn_budget stamped ip a b cs : ∀ store,
  inherited stamped ip = NoMember →
  b - a < RATE_WINDOW_MS →
  StronglySorted Z.le cs.*1.*1 →
  Forall (λ c, c.1.1 <= c.1.2) cs →
  limiterInv store →
  (Z.of_nat (admittedIn ip a b (limiterRun stamped cs store).2)
   <= 2 * RATE_LIMIT - 1)
  ∧ (Forall (λ c, a <= c.1.1) cs →
     Z.of_nat (admittedIn ip a b (limiterRun stamped cs store).2)
     <= budget ip a store).
Proof.
  induction cs as [|[[t s] i] cs IH]; intros store Hplain Hab Hsort Hord Hinv.
  - simpl. split; [unfold RATE_LIMIT; lia|].
    intros _. unfold budget. destruct (store !! ip) as [w|] eqn:Hw.
    + specialize (Hinv _ _ Hw). case_bool_decide; lia.
    + unfold RATE_LIMIT. lia.
  - cbn [fmap list_fmap fst] in Hsort.
    apply StronglySorted_inv in Hsort as [Hsort Hle].
    apply Forall_cons in Hord as [Hts Hord]. cbn [fst snd] in Hts.
    pose proof (rateLimiter_inv stamped t s i store Hinv) as Hinv'.
    destruct (IH _ Hplain Hab Hsort Hord Hinv') as [IH9 IHb].
    cbn [limiterRun snd admittedIn]. unfold counted. cbn [fst snd].
    assert (Hmem : ∀ c, c ∈ cs → t <= c.1.1).
    { intros c Hc. rewrite Forall_forall in Hle. apply Hle.
      apply (list_elem_of_fmap_2 fst), (list_elem_of_fmap_2 fst) in Hc.
      exact Hc. }
    assert (Hrest : a <= t → Forall (λ c, a <= c.1.1) cs).
    { intros Hat. apply Forall_forall. intros c Hc.
      specialize (Hmem c Hc). lia. }
    assert (Hlate : b < t → Forall (λ c, b < c.1.1) cs).
    { intros Hbt. apply Forall_forall. intros c Hc.
      specialize (Hmem c Hc). lia. }
    assert (Hmain : a <= t →
      Z.of_nat (if bool_decide (i = ip)
                   && bool_decide ((rateLimiter stamped t s i store).2 = Next)
                   && bool_decide (a <= t <= b)
                then S (admittedIn ip a b
                          (limiterRun stamped cs
                             (rateLimiter stamped t s i store).1).2)
                else admittedIn ip a b
                       (limiterRun stamped cs
                          (rateLimiter stamped t s i store).1).2)
      <= budget ip a store).
    { intros Hat. specialize (IHb (Hrest Hat)).
      destruct (decide (i = ip)) as [->|Hne].
      2:{ rewrite (bool_decide_eq_false_2 (i = ip)) by done. cbn [andb].
          unfold budget in *. by rewrite rateLimiter_other in IHb. }
      rewrite (bool_decide_eq_true_2 (ip = ip)) by done. cbn [andb].
      destruct (decide (b < t)) as [Hbt|Hbt].
      { rewrite (bool_decide_eq_false_2 (a <= t <= b)) by lia.
        rewrite andb_false_r, admittedIn_after by auto.
        unfold budget. destruct (store !! ip) as [w|] eqn:Hw.
        - specialize (Hinv _ _ Hw). case_bool_decide; lia.
        - unfold RATE_LIMIT. lia. }
      revert IHb. unfold budget.
      destruct (rateLimiter_cases stamped t s ip store)
        as [[Hop ->]|[(w & Hw & Hin & [[Hc ->]|[Hc ->]])
                     |(_ & [[Hi _]|[Hi _]])]];
        cbn [fst snd]; [| | |congruence|congruence].
      - rewrite lookup_insert_eq. cbn [count windowStart].
        rewrite (bool_decide_eq_false_2 (s < a)) by lia.
        rewrite (bool_decide_eq_true_2 (Next = Next)) by done. cbn [andb].
        unfold opensWindow in Hop. destruct (store !! ip) as [w|] eqn:Hw.
        + specialize (Hinv _ _ Hw). repeat case_bool_decide; lia.
        + repeat case_bool_decide; lia.
      - rewrite lookup_insert_eq, Hw. cbn [count windowStart].
        rewrite (bool_decide_eq_true_2 (Next = Next)) by done. cbn [andb].
        repeat case_bool_decide; lia.
      - rewrite Hw. rewrite (bool_decide_eq_false_2 (Status429 = Next)) by done.
        cbn [andb]. done. }
    split; [|intros Hall; apply Forall_cons in Hall as [Hat _]; auto].
    destruct (decide (a <= t)) as [Hat|Hat].
    + etrans; [by apply Hmain|]. by apply budget_bound.
    + rewrite (bool_decide_eq_false_2 (a <= t <= b)) by lia.
      by rewrite andb_false_r.
Qed.

End LimiterRuns.

(** ** The claims about the limiter *)

(** C5: a call that finds a stale window (more than [RATE_WINDOW_MS] after
    its start), whatever its count was and so also after a refusal in that
    window, replaces it by a window with count 1 that starts now, and is let
    through. *)
Theorem limiter_stale_reset (stamped : bool) (now : Z) (ip : string)
    (store : gmap string RateWindow) (w : RateWindow) :
  store !! ip = Some w →
  now - windowStart w > RATE_WINDOW_MS →
  rateLimiter stamped now now ip store
  = (<[ip := mkWindow 1 now]> store, Next).
Proof.
  intros Hw Hst. apply rateLimiter_open. unfold opensWindow. by rewrite Hw.
Qed.

Lemma limiter_stale_reset_witness :
  rateLimiter false 3600001 3600001 "10.0.0.1" {["10.0.0.1" := mkWindow 5 0]}
  = (<["10.0.0.1" := mkWindow 1 3600001]> {["10.0.0.1" := mkWindow 5 0]}, Next).
Proof.
  apply (limiter_stale_reset false 3600001 "10.0.0.1" _ (mkWindow 5 0)).
  - reflexivity.
  - unfold RATE_WINDOW_MS. simpl. lia.
Defined.

(** C4, at the inputs where the code departs from it: a client whose
    address is the name of a member that the store inherits, and that has
    no window of its own, is let through at every call, however many it
    makes in a window, and no window is ever stored for it. *)
Theorem limiter_member_never_refused (stamped : bool) (ip : string)
    (cs : list (Z * Z * string)) (store : gmap string RateWindow) :
  store !! ip = None →
  inherited stamped ip = ObjectMember →
  Forall (λ c, c.2 = ip) cs →
  limiterRun stamped cs store = (store, (λ c, (c.1.1, ip, Next)) <$> cs).
Proof.
  intros Hw Hi Hcs. induction Hcs as [|[[t s] i] cs Hc Hcs IH]; [done|].
  cbn [snd] in Hc. subst i. cbn [limiterRun fmap list_fmap fst snd].
  rewrite rateLimiter_member by done. cbn [fst snd]. by rewrite IH.
Qed.

Lemma limiter_member_never_refused_witness :
  limiterRun false
    [(0, 0, "constructor"); (1, 1, "constructor"); (2, 2, "constructor");
     (3, 3, "constructor"); (4, 4, "constructor"); (5, 5, "constructor")] ∅
  = (∅, [(0, "constructor", Next); (1, "constructor", Next);
         (2, "constructor", Next); (3, "constructor", Next);
         (4, "constructor", Next); (5, "constructor", Next)]).
Proof.
  apply (limiter_member_never_refused false "constructor"
           [(0, 0, "constructor"); (1, 1, "constructor"); (2, 2, "constructor");
            (3, 3, "constructor"); (4, 4, "constructor"); (5, 5, "constructor")]
           ∅).
  - reflexivity.
  - reflexivity.
  - repeat constructor.
Defined.

(** C2, at an input where the code departs from it: eleven posts of the
    client [__proto__] within eleven milliseconds are all let through, two
    more than the bound. *)
Theorem limiter_burst_of_member :
  admittedIn "__proto__" 0 10 (limiterRun false protoCalls ∅).2 = 11%nat
  ∧ (limiterRun false protoCalls ∅).1 = ∅.
Proof. split; vm_compute; reflexivity. Qed.

(** X15: the window quota of a client with an ordinary address: when the
    client has no window and its address names nothing the store inherits,
    or when its window is stale, its next [RATE_LIMIT] consecutive calls
    that fall within [RATE_WINDOW_MS] of the first are all let through, the
    call after them within the same window is refused, and the refusal
    leaves the store as it was. *)
Theorem limiter_window_quota (stamped : bool) (store : gmap string RateWindow)
    (ip : string) (t0 : Z) (ts : list Z) (t' : Z) :
  opensWindow stamped t0 ip store →
  length ts = Z.to_nat (RATE_LIMIT - 1) →
  Forall (λ t, t - t0 <= RATE_WINDOW_MS) ts →
  t' - t0 <= RATE_WINDOW_MS →
  (consecutive stamped ip (t0 :: ts) store).2
  = (λ t, (t, ip, Next)) <$> (t0 :: ts)
  ∧ (consecutive stamped ip (t0 :: ts) store).1 !! ip
    = Some (mkWindow RATE_LIMIT t0)
  ∧ rateLimiter stamped t' t' ip (consecutive stamped ip (t0 :: ts) store).1
    = ((consecutive stamped ip (t0 :: ts) store).1, Status429).
Proof.
  intros Hop Hlen Hin Hlate.
  assert (Hrun : consecutive stamped ip (t0 :: ts) store
    = (<[ip := mkWindow RATE_LIMIT t0]> store,
       (λ t, (t, ip, Next)) <$> (t0 :: ts))).
  { unfold consecutive. cbn [fmap list_fmap limiterRun].
    rewrite rateLimiter_open by done. cbn [fst snd].
    fold (consecutive stamped ip ts (<[ip:=mkWindow 1 t0]> store)).
    rewrite (consecutive_within stamped ip ts _ (mkWindow 1 t0));
      [|by rewrite lookup_insert_eq|done|simpl; unfold RATE_LIMIT in *; lia].
    cbn [count windowStart fst snd]. rewrite insert_insert_eq.
    do 3 f_equal. rewrite Hlen. unfold RATE_LIMIT. lia. }
  rewrite Hrun. cbn [fst snd]. split; [done|].
  split; [by rewrite lookup_insert_eq|].
  apply (rateLimiter_full _ _ _ _ _ (mkWindow RATE_LIMIT t0));
    [by rewrite lookup_insert_eq|done|simpl; lia].
Qed.

Lemma limiter_window_quota_witness :
  (consecutive false "10.0.0.1" [0; 10; 20; 30; 3600000] ∅).2
  = [(0, "10.0.0.1", Next); (10, "10.0.0.1", Next); (20, "10.0.0.1", Next);
     (30, "10.0.0.1", Next); (3600000, "10.0.0.1", Next)]
  ∧ (consecutive false "10.0.0.1" [0; 10; 20; 30; 3600000] ∅).1 !! "10.0.0.1"
    = Some (mkWindow 5 0)
  ∧ rateLimiter false 3600000 3600000 "10.0.0.1"
      (consecutive false "10.0.0.1" [0; 10; 20; 30; 3600000] ∅).1
    = ((consecutive false "10.0.0.1" [0; 10; 20; 30; 3600000] ∅).1, Status429).
Proof.
  apply (limiter_window_quota false ∅ "10.0.0.1" 0 [10; 20; 30; 3600000]
           3600000).
  - reflexivity.
  - reflexivity.
  - unfold RATE_WINDOW_MS. repeat constructor; simpl; lia.
  - unfold RATE_WINDOW_MS. simpl. lia.
Defined.

(** X16: the burst bound of a client with an ordinary address: for a client
    whose address names nothing the store inherits, every run of calls (of
    any clients, with clock reads that never decrease) and every interval
    shorter than [RATE_WINDOW_MS], at most [2 * RATE_LIMIT - 1] (that is 9)
    of the client's calls at instants of the interval are let through. *)
Theorem limiter_burst_bound (stamped : bool) (ip : string) (a b : Z)
    (cs : list (Z * Z * string)) (store : gmap string RateWindow) :
  inherited stamped ip = NoMember →
  limiterInv store →
  StronglySorted Z.le cs.*1.*1 →
  Forall (λ c, c.1.1 <= c.1.2) cs →
  b - a < RATE_WINDOW_MS →
  (admittedIn ip a b (limiterRun stamped cs store).2
   <= Z.to_nat (2 * RATE_LIMIT - 1))%nat.
Proof.
  intros Hplain Hinv Hsort Hord Hab.
  destruct (admittedIn_budget stamped ip a b cs store Hplain Hab Hsort Hord Hinv)
    as [H9 _].
  unfold RATE_LIMIT in *. lia.
Qed.

Lemma limiter_burst_bound_witness :
  (admittedIn "10.0.0.1" 2 3600001 (limiterRun false burstCalls ∅).2
   <= Z.to_nat (2 * RATE_LIMIT - 1))%nat.
Proof.
  apply limiter_burst_bound.
  - reflexivity.
  - intros ip w Hw. rewrite lookup_empty in Hw. discriminate.
  - unfold burstCalls. simpl.
    repeat (constructor; [|repeat constructor; lia]). constructor.
  - unfold burstCalls. repeat constructor; simpl; lia.
  - unfold RATE_WINDOW_MS. lia.
Defined.

(** The bound is reached: nine calls let through within an interval of
    [RATE_WINDOW_MS - 1] milliseconds. *)
Example limiter_burst_reached :
  admittedIn "10.0.0.1" 2 3600001 (limiterRun false burstCalls ∅).2 = 9%nat.
Proof. vm_compute. reflexivity. Qed.

(** * Properties of the cache, the write-back and the sweeper *)

Section Sweeper.
Implicit Types (m : gmap string Entry) (st : Db.State).

Lemma stale_live now entry : stale now entry = false ↔ live now entry.
Proof.
  unfold stale, live. rewrite orb_false_iff, !bool_decide_eq_false. lia.
Qed.

Lemma stale_not_live now entry : stale now entry = true ↔ ¬ live now entry.
Proof.
  rewrite <- stale_live. destruct (stale now entry); naive_solver.
Qed.

(** The loop of [recycle] over any list of entries: an id with a stale entry
    in the list is gone, an id without one is as before, and [changed] is
    set iff the list holds a stale entry. *)
Lemma recycle_loop_gone now l : ∀ acc k e,
  (k, e) ∈ l → stale now e = true →
  (foldl (recycleStep now) acc l).1 !! k = None.
Proof.
  induction l as [|[k' e'] l IH] using rev_ind; intros acc k e Hin Hs.
  - by apply elem_of_nil in Hin.
  - rewrite foldl_snoc. unfold recycleStep at 1. cbn [fst snd].
    apply elem_of_app in Hin as [Hin|Hin%list_elem_of_singleton].
    + destruct (stale now e'); [|by eapply IH].
      cbn [fst]. destruct (decide (k' = k)) as [->|Hne].
      * by rewrite lookup_delete_eq.
      * rewrite lookup_delete_ne by done. by eapply IH.
    + injection Hin as -> ->. rewrite Hs. cbn [fst]. by rewrite lookup_delete_eq.
Qed.

Lemma recycle_loop_kept now l : ∀ acc k,
  (∀ e, (k, e) ∈ l → stale now e = false) →
  (foldl (recycleStep now) acc l).1 !! k = acc.1 !! k.
Proof.
  induction l as [|[k' e'] l IH] using rev_ind; intros acc k Hall; [done|].
  rewrite foldl_snoc. unfold recycleStep at 1. cbn [fst snd].
  assert (Hl : ∀ e, (k, e) ∈ l → stale now e = false).
  { intros e He. apply Hall, elem_of_app. by left. }
  destruct (stale now e') eqn:Hs; [|by apply IH].
  cbn [fst]. rewrite lookup_delete_ne; [by apply IH|].
  intros ->. specialize (Hall e'). rewrite Hs in Hall.
  discriminate Hall. apply elem_of_app. right. by apply list_elem_of_singleton.
Qed.

Lemma recycle_loop_changed now l : ∀ acc,
  (foldl (recycleStep now) acc l).2
  = acc.2 || bool_decide (Exists (λ kv, stale now kv.2 = true) l).
Proof.
  induction l as [|[k' e'] l IH] using rev_ind; intros acc.
  - cbn [foldl]. rewrite bool_decide_eq_false_2; [by rewrite orb_false_r|].
    by intros ?%Exists_nil.
  - rewrite foldl_snoc. unfold recycleStep at 1. cbn [fst snd].
    destruct (stale now e') eqn:Hs; cbn [snd].
    + rewrite bool_decide_eq_true_2; [by rewrite orb_true_r|].
      apply Exists_app. right. by constructor.
    + rewrite IH. f_equal. apply bool_decide_ext.
      rewrite Exists_app, Exists_cons, Exists_nil. cbn [snd]. rewrite Hs.
      intuition discriminate.
Qed.

Lemma recycle_cache now st :
  dbCache (recycle now st) = filter (λ kv, live now kv.2) (dbCache st).
Proof.
  assert (Hc : dbCache (recycle now st)
    = (foldl (recycleStep now) (dbCache st, false) (map_to_list (dbCache st))).1).
  { unfold recycle. cbv zeta.
    destruct (foldl _ _ _) as [c []]; cbn [fst snd]; [|done].
    unfold bufferedSave, setCache. by destruct (saveTimer _). }
  rewrite Hc. apply map_eq. intros k.
  destruct (dbCache st !! k) as [e|] eqn:Hk.
  - destruct (stale now e) eqn:Hs.
    + rewrite (recycle_loop_gone now _ _ k e);
        [|by apply elem_of_map_to_list|done].
      symmetry. apply map_lookup_filter_None. right. intros e' He'.
      cbn [snd]. rewrite He' in Hk. injection Hk as ->.
      by apply stale_not_live.
    + rewrite recycle_loop_kept; cbn [fst].
      * rewrite Hk. symmetry. apply map_lookup_filter_Some. split; [done|].
        by apply stale_live.
      * intros e' He'%elem_of_map_to_list. congruence.
  - rewrite recycle_loop_kept; cbn [fst].
    + rewrite Hk. symmetry. apply map_lookup_filter_None. by left.
    + intros e' He'%elem_of_map_to_list. congruence.
Qed.

Lemma recycle_changed now st :
  (foldl (recycleStep now) (dbCache st, false) (map_to_list (dbCache st))).2
  = bool_decide (¬ map_Forall (λ _ e, live now e) (dbCache st)).
Proof.
  rewrite recycle_loop_changed. cbn [snd orb]. apply bool_decide_ext.
  rewrite Exists_exists. split.
  - intros ([k e] & Hin%elem_of_map_to_list & Hs) Hall. cbn [snd] in Hs.
    apply stale_not_live in Hs. apply Hs. by eapply Hall.
  - intros (k & e & Hk & Hs)%map_not_Forall; [|apply _].
    exists (k, e). split; [by apply elem_of_map_to_list|].
    by apply stale_not_live.
Qed.

End Sweeper.

Section WriteBack.
Implicit Types (st : Db.State).

Lemma bufferedSave_pending due now st :
  flushPending due st →
  flushPending due (bufferedSave now st)
  ∧ dbCache (bufferedSave now st) = dbCache st
  ∧ saveTimer (bufferedSave now st) = saveTimer st
  ∧ timers (bufferedSave now st) = timers st
  ∧ dbFile (bufferedSave now st) = dbFile st.
Proof.
  intros [Hs Ht]. unfold flushPending, bufferedSave. rewrite Hs.
  cbn [dbCache saveTimer timers dbFile]. by rewrite Ht.
Qed.

Lemma bufferedSaves_pending due nows : ∀ st,
  flushPending due st →
  flushPending due (bufferedSaves nows st)
  ∧ dbCache (bufferedSaves nows st) = dbCache st
  ∧ saveTimer (bufferedSaves nows st) = saveTimer st
  ∧ timers (bufferedSaves nows st) = timers st
  ∧ dbFile (bufferedSaves nows st) = dbFile st.
Proof.
  unfold bufferedSaves. induction nows as [|now nows IH]; intros st Hp; [done|].
  cbn [foldl].
  destruct (bufferedSave_pending due now st Hp) as (Hp' & Hc & Hs & Ht & Hf).
  destruct (IH _ Hp') as (? & -> & -> & -> & ->). by rewrite Hc, Hs, Ht, Hf.
Qed.

(** The timers phase with exactly one registered callback. *)
Lemma runTimers_single due now st :
  timers st = [due] →
  runTimers now st
  = if bool_decide (due <= now)
    then {| dbCache := dbCache st; saveTimer := None; timers := [];
            dbFile := dbCache st :: dbFile st; saveCalls := saveCalls st;
            prototypeStamped := prototypeStamped st |}
    else {| dbCache := dbCache st; saveTimer := saveTimer st; timers := [due];
            dbFile := dbFile st; saveCalls := saveCalls st;
            prototypeStamped := prototypeStamped st |}.
Proof.
  intros Ht. unfold runTimers. rewrite Ht. cbv zeta.
  rewrite !filter_cons, !filter_nil. unfold dueNow.
  case_bool_decide; repeat case_decide; try done.
Qed.

(** The timers phase with no registered callback does nothing. *)
Lemma runTimers_idle now st :
  timers st = [] → dbFile (runTimers now st) = dbFile st.
Proof. intros Ht. unfold runTimers. by rewrite Ht. Qed.

End WriteBack.

(** ** The claims about the sweeper and the write-back *)

(** C6: one run of the sweeper removes exactly the records that are not live
    (expired, or idle for more than [LAST_ACCESS_LIMIT]), keeps every live
    record as it is, and calls [bufferedSave] once if it removed a record
    and not at all otherwise. *)
Theorem sweeper_batch (now : Z) (st : Db.State) :
  dbCache (recycle now st) = filter (λ kv, live now kv.2) (dbCache st)
  ∧ saveCalls (recycle now st)
    = (saveCalls st
       + if bool_decide (map_Forall (λ _ e, live now e) (dbCache st))
         then 0 else 1)%nat.
Proof.
  split; [apply recycle_cache|].
  unfold recycle. cbv zeta. rewrite recycle_changed.
  destruct (decide (map_Forall (λ _ e, live now e) (dbCache st))) as [Hall|Hall].
  - rewrite bool_decide_eq_false_2 by tauto.
    rewrite bool_decide_eq_true_2 by done.
    unfold setCache. cbn [saveCalls]. lia.
  - rewrite bool_decide_eq_true_2 by done.
    rewrite bool_decide_eq_false_2 by done.
    unfold bufferedSave, setCache. cbn [saveTimer].
    destruct (saveTimer st); cbn [saveCalls]; lia.
Qed.

(** C7: while a flush is pending, further calls of [bufferedSave] change
    neither the cache, nor [saveTimer], nor the registered timeouts, nor the
    file; the file is not written before the delay has elapsed, and when it
    has, the timers phase writes the cache once and nothing stays
    registered, so no second write follows. *)
Theorem bufferedSave_idempotent (due : Z) (nows : list Z) (st : Db.State) :
  flushPending due st →
  dbCache (bufferedSaves nows st) = dbCache st
  ∧ saveTimer (bufferedSaves nows st) = saveTimer st
  ∧ timers (bufferedSaves nows st) = timers st
  ∧ dbFile (bufferedSaves nows st) = dbFile st
  ∧ (∀ now, now < due →
       dbFile (runTimers now (bufferedSaves nows st)) = dbFile st)
  ∧ (∀ now, due <= now →
       dbFile (runTimers now (bufferedSaves nows st)) = dbCache st :: dbFile st
       ∧ saveTimer (runTimers now (bufferedSaves nows st)) = None
       ∧ timers (runTimers now (bufferedSaves nows st)) = []
       ∧ ∀ now', dbFile (runTimers now' (runTimers now (bufferedSaves nows st)))
                 = dbCache st :: dbFile st).
Proof.
  intros Hp.
  destruct (bufferedSaves_pending due nows st Hp) as ([_ Ht] & Hc & Hs & Ht' & Hf).
  repeat (split; [done|]). split.
  - intros now Hnow. rewrite (runTimers_single due) by done.
    rewrite bool_decide_eq_false_2 by lia. done.
  - intros now Hnow. rewrite (runTimers_single due) by done.
    rewrite bool_decide_eq_true_2 by done. cbn [dbFile saveTimer timers].
    rewrite Hc, Hf. repeat (split; [done|]).
    intros now'. by rewrite runTimers_idle.
Qed.

Lemma bufferedSave_idempotent_witness :
  dbFile (runTimers 260
            (bufferedSaves [50; 120; 199] (bufferedSave 0 Db.initial)))
  = [∅].
Proof.
  pose proof (bufferedSave_idempotent 200 [50; 120; 199]
                (bufferedSave 0 Db.initial)) as H.
  destruct H as (_ & _ & _ & _ & _ & H); [split; reflexivity|].
  destruct (H 260) as [Hw _]; [lia|]. exact Hw.
Defined.

(** * Properties of the handlers *)

Section Handlers.
Implicit Types (st : Db.State) (id : string) (e : Entry).

Lemma dbCache_bufferedSave now st : dbCache (bufferedSave now st) = dbCache st.
Proof. unfold bufferedSave. by destruct (saveTimer st). Qed.

Lemma saveCalls_bufferedSave now st :
  saveCalls (bufferedSave now st) = S (saveCalls st).
Proof. unfold bufferedSave. by destruct (saveTimer st). Qed.

Lemma prototypeStamped_bufferedSave now st :
  prototypeStamped (bufferedSave now st) = prototypeStamped st.
Proof. unfold bufferedSave. by destruct (saveTimer st). Qed.

Lemma dbCache_runTimers now st : dbCache (runTimers now st) = dbCache st.
Proof.
  unfold runTimers. cbv zeta.
  generalize (filter (λ d, dueNow now d = true) (timers st)).
  generalize (filter (λ d, dueNow now d = false) (timers st)).
  generalize (saveTimer st). intros o later ready. revert o later.
  generalize (dbFile st). induction ready as [|d ready IH]; intros f o later.
  - done.
  - cbn [foldl]. unfold flush at 2.
    cbn [dbCache saveTimer timers dbFile saveCalls prototypeStamped].
    apply IH.
Qed.

Lemma prototypeStamped_runTimers now st :
  prototypeStamped (runTimers now st) = prototypeStamped st.
Proof.
  unfold runTimers. cbv zeta.
  generalize (filter (λ d, dueNow now d = true) (timers st)).
  generalize (filter (λ d, dueNow now d = false) (timers st)).
  generalize (saveTimer st). intros o later ready. revert o later.
  generalize (dbFile st). induction ready as [|d ready IH]; intros f o later.
  - done.
  - cbn [foldl]. unfold flush at 2.
    cbn [dbCache saveTimer timers dbFile saveCalls prototypeStamped].
    apply IH.
Qed.

Lemma access_absent now stamp id st :
  dbCache st !! id = None →
  inherited (prototypeStamped st) id = NoMember →
  access now stamp id st = (st, Missing).
Proof. intros H Hi. unfold access. by rewrite H, Hi. Qed.

Lemma access_expired now stamp id st e :
  dbCache st !! id = Some e → now > expires e →
  access now stamp id st = (setCache (delete id (dbCache st)) st, Missing).
Proof.
  intros H Hx. unfold access. rewrite H. by rewrite bool_decide_eq_true_2.
Qed.

Lemma access_hit now stamp id st e :
  dbCache st !! id = Some e → now <= expires e →
  access now stamp id st
  = (bufferedSave now (setCache (<[id := touch stamp e]> (dbCache st)) st),
     Stored (touch stamp e)).
Proof.
  intros H Hx. unfold access. rewrite H. by rewrite bool_decide_eq_false_2 by lia.
Qed.

Lemma access_member now stamp id st :
  dbCache st !! id = None →
  inherited (prototypeStamped st) id = ObjectMember →
  access now stamp id st = (bufferedSave now (touchMember id st), Member).
Proof. intros H Hi. unfold access. by rewrite H, Hi. Qed.

(** An access without an own entry leaves the cache as it is. *)
Lemma access_no_entry now stamp id st :
  dbCache st !! id = None → dbCache (access now stamp id st).1 = dbCache st.
Proof.
  intros H. unfold access. rewrite H.
  destruct (inherited (prototypeStamped st) id); cbn [fst]; [done| |done].
  by rewrite dbCache_bufferedSave.
Qed.

(** Where an entry found in the cache after an access comes from. *)
Lemma access_lookup now stamp id id' st e' :
  dbCache (access now stamp id st).1 !! id' = Some e' →
  dbCache st !! id' = Some e'
  ∨ ∃ e, dbCache st !! id' = Some e ∧ e' = touch stamp e.
Proof.
  destruct (dbCache st !! id) as [e|] eqn:Hid.
  - destruct (decide (now > expires e)) as [Hx|Hx].
    + rewrite (access_expired _ _ _ _ e) by done. cbn [fst setCache dbCache].
      intros [_ H]%lookup_delete_Some. by left.
    + rewrite (access_hit _ _ _ _ e) by (done || lia). cbn [fst].
      rewrite dbCache_bufferedSave. cbn [setCache dbCache].
      destruct (decide (id = id')) as [<-|Hne].
      * rewrite lookup_insert_eq. intros [= <-]. right. by exists e.
      * rewrite lookup_insert_ne by done. by left.
  - rewrite access_no_entry by done. by left.
Qed.

Lemma getId_state now stamp id st :
  (getId now stamp id st).1 = (access now stamp id st).1.
Proof. unfold getId. by destruct (access now stamp id st) as [? []]. Qed.

Lemma getStats_state now stamp id st :
  (getStats now stamp id st).1 = (access now stamp id st).1.
Proof. unfold getStats. by destruct (access now stamp id st) as [? []]. Qed.

(** Where an entry found in the cache after one turn of the event loop
    comes from: it was there, or it is the entry that was there with the
    access counted, or the turn created it. *)
Lemma step_lookup clk ev sv id e' :
  dbCache (db (step clk ev sv).1) !! id = Some e' →
  dbCache (db sv) !! id = Some e'
  ∨ (∃ e, dbCache (db sv) !! id = Some e ∧ e' = touch (read2 clk) e)
  ∨ (creates id ev ∧ created e' = read3 clk ∧ lastAccessed e' = read3 clk
     ∧ expires e' = read4 clk + EXPIRY_MS).
Proof.
  destruct ev as [ip url nid|gid|gid| |]; cbn [step].
  - destruct (rateLimiter _ (read1 clk) (read2 clk) ip (rateLimitStore sv))
      as [store' []]; cbn [fst db]; [|by left|by left].
    unfold shorten. case_bool_decide; cbn [fst]; [by left|].
    rewrite dbCache_bufferedSave. cbn [setCache dbCache].
    destruct (decide (nid = id)) as [->|Hne].
    + rewrite lookup_insert_eq. intros [= <-]. right. right. by cbn.
    + rewrite lookup_insert_ne by done. by left.
  - cbn [fst db]. rewrite getId_state. intros H.
    apply access_lookup in H as [H|H]; [by left|by right; left].
  - cbn [fst db]. rewrite getStats_state. intros H.
    apply access_lookup in H as [H|H]; [by left|by right; left].
  - cbn [fst db]. rewrite recycle_cache.
    intros [H _]%map_lookup_filter_Some. by left.
  - cbn [fst db]. rewrite dbCache_runTimers. by left.
Qed.

(** An id that is not in the cache stays out of it as long as no request
    creates it. *)
Lemma step_absent clk ev sv id :
  dbCache (db sv) !! id = None → ¬ creates id ev →
  dbCache (db (step clk ev sv).1) !! id = None.
Proof.
  intros Hnone Hnc.
  destruct (dbCache (db (step clk ev sv).1) !! id) as [e'|] eqn:H; [|done].
  apply step_lookup in H as [H|[(e & H & _)|(Hc & _)]]; congruence || done.
Qed.

Lemma run_absent evs : ∀ sv id,
  dbCache (db sv) !! id = None →
  Forall (λ tev, ¬ creates id tev.2) evs →
  dbCache (db (run evs sv).1) !! id = None.
Proof.
  induction evs as [|[t ev] evs IH]; intros sv id Hnone Hall; [done|].
  apply Forall_cons in Hall as [Hev Hall]. cbn [run fst].
  apply IH; [|done]. by apply step_absent.
Qed.

End Handlers.

(** ** The claims about the handlers *)

(** C1, as the code has it, for the ids that name no inherited member:
    [GET /:id] and [GET /:id/stats] answer 404 and leave the state alone
    when such an id is absent; for a stored record they answer 404 and
    delete it when [now > expires]; and otherwise, however long the record
    has been idle, they add one to [clicks], set [lastAccessed] to [now],
    call [bufferedSave], touch no other id, and answer with the updated
    record. *)
Theorem access_checks_expiry_only (now : Z) (id : string) (st : Db.State) :
  (dbCache st !! id = None → plainKey id →
     getId now now id st = (st, NotFound404)
     ∧ getStats now now id st = (st, NotFound404))
  ∧ (∀ e, dbCache st !! id = Some e → now > expires e →
       (getId now now id st).2 = NotFound404
       ∧ (getStats now now id st).2 = NotFound404
       ∧ dbCache (getId now now id st).1 = delete id (dbCache st)
       ∧ dbCache (getStats now now id st).1 = delete id (dbCache st))
  ∧ (∀ e, dbCache st !! id = Some e → now <= expires e →
       (getId now now id st).2 = Redirect302 (originalUrl e)
       ∧ (getStats now now id st).2
         = Stats200 id (originalUrl e) (clicks e + 1) (created e) (expires e) now
       ∧ (getStats now now id st).1 = (getId now now id st).1
       ∧ dbCache (getId now now id st).1
         = <[id := mkEntry (originalUrl e) (created e) (expires e) now
                           (clicks e + 1)]> (dbCache st)
       ∧ saveCalls (getId now now id st).1 = S (saveCalls st)).
Proof.
  split; [|split].
  - intros H Hp. unfold getId, getStats.
    by rewrite access_absent by (done || by apply plainKey_inherited).
  - intros e H Hx. unfold getId, getStats.
    by rewrite (access_expired _ _ _ _ e).
  - intros e H Hx. unfold getId, getStats.
    rewrite (access_hit _ _ _ _ e) by done. cbn [fst snd touch originalUrl
      clicks created expires lastAccessed].
    rewrite dbCache_bufferedSave, saveCalls_bufferedSave. done.
Qed.

(** An entry that is idle for more than [LAST_ACCESS_LIMIT] and has not
    reached [expires] is served. *)
Lemma access_checks_expiry_only_witness :
  (getId 259200001 259200001 "abc123" sampleState).2
  = Redirect302 "https://example.com".
Proof.
  destruct (access_checks_expiry_only 259200001 "abc123" sampleState)
    as (_ & _ & H).
  destruct (H sampleEntry) as [Hr _].
  - reflexivity.
  - unfold sampleEntry, EXPIRY_MS. simpl. lia.
  - exact Hr.
Defined.

(** C1 as the specification states it fails: the sample record is not live
    at 72 h + 1 ms (it has been idle for more than [LAST_ACCESS_LIMIT]), and
    yet both handlers serve it, count the access, and keep it. *)
Lemma access_idle_not_evicted :
  dbCache sampleState !! "abc123" = Some sampleEntry
  ∧ ¬ live 259200001 sampleEntry
  ∧ (getId 259200001 259200001 "abc123" sampleState).2
    = Redirect302 "https://example.com"
  ∧ (getStats 259200001 259200001 "abc123" sampleState).2
    = Stats200 "abc123" "https://example.com" 1 0 EXPIRY_MS 259200001
  ∧ dbCache (getId 259200001 259200001 "abc123" sampleState).1 !! "abc123"
    = Some (mkEntry "https://example.com" 0 EXPIRY_MS 259200001 1).
Proof.
  split; [reflexivity|]. split.
  - unfold live, sampleEntry, LAST_ACCESS_LIMIT. simpl. lia.
  - repeat split; vm_compute; reflexivity.
Qed.

(** What the handlers do at the name of an inherited member, which the
    statement above leaves out: [GET /constructor] on an empty cache
    redirects without a target and calls [bufferedSave]; after a [GET] on
    [__proto__], a [GET] on [lastAccessed] throws. *)
Example access_of_inherited_members :
  (getId 1000 1000 "constructor" Db.initial).2 = RedirectUndefined302
  ∧ saveTimer (getId 1000 1000 "constructor" Db.initial).1 = Some 1200
  ∧ dbCache (getId 1000 1000 "constructor" Db.initial).1 = ∅
  ∧ (getId 2000 2000 "lastAccessed" Db.initial).2 = NotFound404
  ∧ (getId 2000 2000 "lastAccessed"
       (getStats 1000 1000 "__proto__" Db.initial).1).2 = Error500.
Proof. repeat split; vm_compute; reflexivity. Qed.




(** C9: [GET /:id] on a record whose [expires] has passed answers 404 and
    removes the record, and after any further turns of the event loop among
    which no request creates the id again, the id is still not stored and
    [GET /:id] still answers 404.  (The answer is read off an id that names
    no inherited member, as every id that [nanoid(6)] returns.) *)
Theorem expired_gone_for_good (sv : Server.State) (clk : Clock) (id : string)
    (e : Entry) (evs : list (Clock * Event)) (clk' : Clock) :
  dbCache (db sv) !! id = Some e →
  read1 clk > expires e →
  Forall (λ tev, ¬ creates id tev.2) evs →
  (step clk (GetId id) sv).2 = Some NotFound404
  ∧ dbCache (db (step clk (GetId id) sv).1) !! id = None
  ∧ (plainKey id →
     (step clk' (GetId id) (run evs (step clk (GetId id) sv).1).1).2
     = Some NotFound404)
  ∧ dbCache (db (step clk' (GetId id)
                   (run evs (step clk (GetId id) sv).1).1).1) !! id = None.
Proof.
  intros He Hx Hevs.
  assert (Hgone : dbCache (db (step clk (GetId id) sv).1) !! id = None).
  { cbn [step fst db]. rewrite getId_state.
    rewrite (access_expired _ _ _ _ e) by done.
    cbn [fst setCache dbCache]. by rewrite lookup_delete_eq. }
  assert (Hstill : dbCache (db (run evs (step clk (GetId id) sv).1).1) !! id
                   = None)
    by (by apply run_absent).
  split; [|split; [done|split]].
  - cbn [step snd]. unfold getId. by rewrite (access_expired _ _ _ _ e).
  - intros Hp. cbn [step snd]. unfold getId.
    by rewrite access_absent by (done || by apply plainKey_inherited).
  - apply step_absent; [done|]. cbn. tauto.
Qed.

Lemma expired_gone_for_good_witness :
  (step (instant 700000000) (GetId "abc123")
     (run [(instant 700000001, Sweep);
           (instant 700000002, GetStats "abc123");
           (mkClock 700000003 700000003 700000004 700000005,
            PostShorten "10.0.0.1" "https://example.com" "xyz789");
           (instant 700000300, Timers)]
          (step (instant 604800001) (GetId "abc123")
                (mkServer sampleState ∅)).1).1).2
  = Some NotFound404.
Proof.
  destruct (expired_gone_for_good (mkServer sampleState ∅)
              (instant 604800001) "abc123" sampleEntry
              [(instant 700000001, Sweep);
               (instant 700000002, GetStats "abc123");
               (mkClock 700000003 700000003 700000004 700000005,
                PostShorten "10.0.0.1" "https://example.com" "xyz789");
               (instant 700000300, Timers)] (instant 700000000))
    as (_ & _ & H & _).
  - reflexivity.
  - unfold sampleEntry, EXPIRY_MS. simpl. lia.
  - repeat constructor; simpl; try tauto. discriminate.
  - apply H, nanoid_plainKey. reflexivity.
Defined.

(** * Invariants of the process *)

Section Invariants.
Implicit Types (sv : Server.State) (st : Db.State).

Lemma step_cacheInv now clk ev sv :
  now <= read1 clk → inOrder clk →
  cacheInv now (dbCache (db sv)) →
  cacheInv (read4 clk) (dbCache (db (step clk ev sv).1)).
Proof.
  intros Hle (H12 & H23 & H34) Hinv id e' H.
  apply step_lookup in H as [H|[(e & H & ->)|(_ & Hc & Hl & Hx)]].
  - destruct (Hinv _ _ H) as [Hok Hla]. split; [done|lia].
  - destruct (Hinv _ _ H) as [[Hx Hla] Hnow]. unfold entryKept, touch.
    cbn [expires created lastAccessed]. repeat split; lia.
  - unfold entryKept. repeat split; lia.
Qed.

Lemma step_limiter clk ev sv :
  limiterInv (rateLimitStore sv) →
  limiterInv (rateLimitStore (step clk ev sv).1).
Proof.
  intros Hinv. destruct ev as [ip url nid|gid|gid| |]; cbn [step]; try done.
  pose proof (rateLimiter_inv (prototypeStamped (db sv)) (read1 clk)
                (read2 clk) ip _ Hinv) as H.
  by destruct (rateLimiter _ (read1 clk) (read2 clk) ip (rateLimitStore sv))
    as [store' []].
Qed.

Lemma bufferedSave_timerInv now st : timerInv st → timerInv (bufferedSave now st).
Proof.
  unfold timerInv, bufferedSave. destruct (saveTimer st) eqn:Hs;
    cbn [timers saveTimer]; intros ->; by rewrite ?Hs.
Qed.

Lemma runTimers_timerInv now st : timerInv st → timerInv (runTimers now st).
Proof.
  unfold timerInv. destruct (saveTimer st) as [due|] eqn:Hs; intros Ht.
  - rewrite (runTimers_single due) by done.
    case_bool_decide; cbn [timers saveTimer]; by rewrite ?Hs.
  - unfold runTimers. rewrite Ht. cbn. by rewrite Hs.
Qed.

Lemma access_timerInv now stamp id st :
  timerInv st → timerInv (access now stamp id st).1.
Proof.
  intros Hinv. unfold access. destruct (dbCache st !! id).
  - case_bool_decide; cbn [fst]; [done|]. by apply bufferedSave_timerInv.
  - destruct (inherited (prototypeStamped st) id); cbn [fst]; [done| |done].
    by apply bufferedSave_timerInv.
Qed.

Lemma step_timerInv clk ev sv :
  timerInv (db sv) → timerInv (db (step clk ev sv).1).
Proof.
  intros Hinv. destruct ev as [ip url nid|gid|gid| |]; cbn [step].
  - destruct (rateLimiter _ (read1 clk) (read2 clk) ip (rateLimitStore sv))
      as [store' []]; cbn [fst db]; [|done|done].
    unfold shorten. case_bool_decide; cbn [fst]; [done|].
    by apply bufferedSave_timerInv.
  - cbn [fst db]. rewrite getId_state. by apply access_timerInv.
  - cbn [fst db]. rewrite getStats_state. by apply access_timerInv.
  - cbn [fst db]. unfold recycle. cbv zeta.
    destruct (foldl _ _ _) as [c []]; cbn [fst snd]; [|done].
    by apply bufferedSave_timerInv.
  - cbn [fst db]. by apply runTimers_timerInv.
Qed.

Lemma reachable_inv now sv :
  reachable now sv →
  cacheInv now (dbCache (db sv))
  ∧ limiterInv (rateLimitStore sv)
  ∧ timerInv (db sv).
Proof.
  induction 1 as [now|now sv clk ev Hr (Hc & Hl & Ht) Hle Hord].
  - split; [|split].
    + apply map_Forall_empty.
    + intros ip w H. cbn [Server.initial rateLimitStore] in H.
      by rewrite lookup_empty in H.
    + done.
  - split; [by apply (step_cacheInv now)|]. split.
    + by apply step_limiter.
    + by apply step_timerInv.
Qed.

End Invariants.

(** ** The claims about invariants *)

(** C8, as the code has it: every record of every reachable state has
    [expires >= created + EXPIRY_MS] and [lastAccessed >= created]; every
    turn of the event loop keeps the two (as long as the clock does not run
    backwards); and after a turn the record of an id either has the
    [created], [expires] and [originalUrl] it had before the turn, or was
    stored by the turn, a [POST /shorten] that drew the id, with [created]
    the handler's first clock read and [expires] its second clock read plus
    [EXPIRY_MS] (so with [expires = created + EXPIRY_MS] when the two reads
    agree). *)
Theorem record_invariants :
  (∀ now sv id e,
     reachable now sv → dbCache (db sv) !! id = Some e → entryKept e)
  ∧ (∀ now clk ev sv,
       now <= read1 clk → inOrder clk → cacheInv now (dbCache (db sv)) →
       cacheInv (read4 clk) (dbCache (db (step clk ev sv).1)))
  ∧ (∀ clk ev sv id e',
       dbCache (db (step clk ev sv).1) !! id = Some e' →
       (∃ e, dbCache (db sv) !! id = Some e
             ∧ created e' = created e ∧ expires e' = expires e
             ∧ originalUrl e' = originalUrl e)
       ∨ (creates id ev ∧ created e' = read3 clk
          ∧ expires e' = read4 clk + EXPIRY_MS)).
Proof.
  split; [|split].
  - intros now sv id e Hr He.
    destruct (reachable_inv _ _ Hr) as [Hc _]. by destruct (Hc _ _ He).
  - intros now clk ev sv. apply step_cacheInv.
  - intros clk ev sv id e' H.
    apply step_lookup in H as [H|[(e & H & ->)|(Hc & Hcr & _ & Hx)]].
    + left. by exists e'.
    + left. by exists e.
    + by right.
Qed.

Lemma record_invariants_witness :
  entryKept (mkEntry "https://example.com" 1000 (1001 + EXPIRY_MS) 5001 1).
Proof.
  destruct record_invariants as [H _].
  apply (H 5001
           (step (mkClock 5000 5001 5001 5001) (GetId "abc123")
              (step (mkClock 999 999 1000 1001)
                    (PostShorten "10.0.0.1" "https://example.com" "abc123")
                    Server.initial).1).1
           "abc123").
  - apply (reach_step 1001 _ (mkClock 5000 5001 5001 5001));
      [|simpl; lia|unfold inOrder; simpl; lia].
    apply (reach_step 0 _ (mkClock 999 999 1000 1001));
      [|simpl; lia|unfold inOrder; simpl; lia].
    apply reach_start.
  - vm_compute. reflexivity.
Defined.

(** C8 as the specification states it fails, twice.  A [POST /shorten]
    during which the clock moves from 1000 to 1001 between the two reads of
    the handler leaves, in a reachable state, a record with
    [expires = created + EXPIRY_MS + 1].  And a later [POST /shorten] for
    which [nanoid] returns the same id replaces [created] and [expires] of
    the record stored under it. *)
Lemma record_expiry_not_exact :
  reachable 1001
    (step (mkClock 999 999 1000 1001)
          (PostShorten "10.0.0.1" "https://example.com" "abc123")
          Server.initial).1
  ∧ dbCache (db (step (mkClock 999 999 1000 1001)
                      (PostShorten "10.0.0.1" "https://example.com" "abc123")
                      Server.initial).1) !! "abc123"
    = Some (mkEntry "https://example.com" 1000 (1001 + EXPIRY_MS) 1000 0)
  ∧ ¬ entryOk (mkEntry "https://example.com" 1000 (1001 + EXPIRY_MS) 1000 0)
  ∧ dbCache (db (step (instant 5000)
                      (PostShorten "10.0.0.2" "https://other.example" "abc123")
                      (step (mkClock 999 999 1000 1001)
                            (PostShorten "10.0.0.1" "https://example.com"
                                         "abc123")
                            Server.initial).1).1) !! "abc123"
    = Some (mkEntry "https://other.example" 5000 (5000 + EXPIRY_MS) 5000 0).
Proof.
  split; [|split; [|split]].
  - apply (reach_step 0 _ (mkClock 999 999 1000 1001));
      [|simpl; lia|unfold inOrder; simpl; lia].
    apply reach_start.
  - vm_compute. reflexivity.
  - unfold entryOk. simpl. lia.
  - vm_compute. reflexivity.
Qed.

(** C10: in every reachable state every stored window has
    [1 <= count <= RATE_LIMIT]. *)
Theorem limiter_count_bounds (now : Z) (sv : Server.State) (ip : string)
    (w : RateWindow) :
  reachable now sv →
  rateLimitStore sv !! ip = Some w →
  1 <= count w <= RATE_LIMIT.
Proof.
  intros Hr Hw. destruct (reachable_inv _ _ Hr) as (_ & Hl & _).
  by apply (Hl ip).
Qed.

Lemma limiter_count_bounds_witness :
  1 <= count (mkWindow 2 1000) <= RATE_LIMIT.
Proof.
  apply (limiter_count_bounds 2000
           (step (instant 2000) (PostShorten "10.0.0.1" "" "def456")
              (step (instant 1000)
                    (PostShorten "10.0.0.1" "https://example.com" "abc123")
                    Server.initial).1).1
           "10.0.0.1").
  - apply (reach_step 1000 _ (instant 2000));
      [|simpl; lia|unfold inOrder; simpl; lia].
    apply (reach_step 0 _ (instant 1000));
      [|simpl; lia|unfold inOrder; simpl; lia].
    apply reach_start.
  - vm_compute. reflexivity.
Defined.

(** * Further properties of the limiter *)

Section LimiterMore.
Implicit Types (store : gmap string RateWindow) (ip : string) (w : RateWindow)
  (stamped : bool).

(** Verdict and new window of a call depend on the caller's window only. *)
Lemma rateLimiter_local stamped now stamp ip store1 store2 :
  store1 !! ip = store2 !! ip →
  (rateLimiter stamped now stamp ip store1).2
  = (rateLimiter stamped now stamp ip store2).2
  ∧ (rateLimiter stamped now stamp ip store1).1 !! ip
    = (rateLimiter stamped now stamp ip store2).1 !! ip.
Proof.
  intros Heq. unfold rateLimiter. rewrite <- Heq.
  destruct (store1 !! ip) as [w|] eqn:Hw; cbn [fst snd].
  - repeat case_bool_decide; cbn [fst snd]; rewrite ?lookup_insert_eq;
      (split; [done|]); try done. by rewrite Hw, <- Heq.
  - destruct (inherited stamped ip); cbn [fst snd];
      rewrite ?lookup_insert_eq; (split; [done|]); try done;
      by rewrite Hw, <- Heq.
Qed.

Lemma limiterRun_project stamped ip cs : ∀ store1 store2,
  store1 !! ip = store2 !! ip →
  filter (λ x, x.1.2 = ip) (limiterRun stamped cs store1).2
  = (limiterRun stamped (filter (λ c, c.2 = ip) cs) store2).2
  ∧ (limiterRun stamped cs store1).1 !! ip
    = (limiterRun stamped (filter (λ c, c.2 = ip) cs) store2).1 !! ip.
Proof.
  induction cs as [|[[t s] i] cs IH]; intros store1 store2 Heq; [done|].
  cbn [limiterRun fst snd]. rewrite !filter_cons. cbn [fst snd].
  destruct (decide (i = ip)) as [->|Hne].
  - cbn [limiterRun fst snd].
    destruct (rateLimiter_local stamped t s ip store1 store2 Heq) as [Hv Hs].
    destruct (IH _ _ Hs) as [IHl IHs]. rewrite Hv, IHl. done.
  - apply IH. by rewrite rateLimiter_other.
Qed.

End LimiterMore.

(** X1: a call never removes a client from the store and touches no entry
    but the caller's; the caller has an entry after the call exactly when
    it had one before or its address names nothing that the store inherits
    (for the name of an inherited member no entry is ever stored). *)
Theorem limiter_never_forgets (stamped : bool) (now stamp : Z) (ip : string)
    (store : gmap string RateWindow) :
  dom store ⊆ dom (rateLimiter stamped now stamp ip store).1
  ∧ delete ip (rateLimiter stamped now stamp ip store).1 = delete ip store
  ∧ (ip ∈ dom (rateLimiter stamped now stamp ip store).1
     ↔ ip ∈ dom store ∨ inherited stamped ip = NoMember).
Proof.
  split; [|split].
  - destruct (rateLimiter_cases stamped now stamp ip store)
      as [[_ ->]|[(w & Hw & _ & [[_ ->]|[_ ->]])|(_ & [[_ ->]|[_ ->]])]];
      cbn [fst]; rewrite ?dom_insert_L; try done; apply union_subseteq_r.
  - apply map_eq. intros ip'. destruct (decide (ip = ip')) as [<-|Hne].
    + by rewrite !lookup_delete_eq.
    + rewrite !lookup_delete_ne by done. by apply rateLimiter_other.
  - rewrite !elem_of_dom.
    destruct (rateLimiter_cases stamped now stamp ip store)
      as [[Hop ->]|[(w & Hw & _ & [[_ ->]|[_ ->]])|(Hn & [[Hi ->]|[Hi ->]])]];
      cbn [fst]; rewrite ?lookup_insert_eq.
    + split; [intros _|by eauto]. unfold opensWindow in Hop.
      destruct (store !! ip); [left; eauto|by right].
    + split; [intros _; left; by rewrite Hw|by eauto].
    + split; [by left|]. intros _. by rewrite Hw.
    + rewrite Hn, Hi. split; [by intros [? ?]|]. intros [[? ?]|?]; done.
    + rewrite Hn, Hi. split; [by intros [? ?]|]. intros [[? ?]|?]; done.
Qed.

(** X2: clients do not influence each other: in a run that interleaves the
    calls of any clients, the verdicts of one client, and its final window,
    are those of the run of its own calls alone. *)
Theorem limiter_clients_independent (stamped : bool) (ip : string)
    (cs : list (Z * Z * string)) (store : gmap string RateWindow) :
  filter (λ x, x.1.2 = ip) (limiterRun stamped cs store).2
  = (limiterRun stamped (filter (λ c, c.2 = ip) cs) store).2
  ∧ (limiterRun stamped cs store).1 !! ip
    = (limiterRun stamped (filter (λ c, c.2 = ip) cs) store).1 !! ip.
Proof. by apply limiterRun_project. Qed.

(** X3: once a client is at the limit, each further call of it within the
    window is refused and leaves the store as it is: retrying neither helps
    nor moves the start of the window. *)
Theorem limiter_refusals_change_nothing (stamped : bool) (ip : string)
    (ts : list Z) (store : gmap string RateWindow) (w : RateWindow) :
  store !! ip = Some w →
  count w >= RATE_LIMIT →
  Forall (λ t, t - windowStart w <= RATE_WINDOW_MS) ts →
  consecutive stamped ip ts store = (store, (λ t, (t, ip, Status429)) <$> ts).
Proof.
  intros Hw Hc Hin. unfold consecutive.
  induction Hin as [|t ts Ht Hin IH]; [done|].
  cbn [fmap list_fmap limiterRun].
  rewrite (rateLimiter_full _ _ _ _ _ w) by (done || lia). cbn [fst snd].
  by rewrite IH.
Qed.

Lemma limiter_refusals_change_nothing_witness :
  consecutive false "10.0.0.1" [7; 3600000] {["10.0.0.1" := mkWindow 5 0]}
  = ({["10.0.0.1" := mkWindow 5 0]},
     [(7, "10.0.0.1", Status429); (3600000, "10.0.0.1", Status429)]).
Proof.
  apply (limiter_refusals_change_nothing false "10.0.0.1" [7; 3600000] _
           (mkWindow 5 0)).
  - reflexivity.
  - unfold RATE_LIMIT. simpl. lia.
  - unfold RATE_WINDOW_MS. repeat constructor; simpl; lia.
Defined.

Section RealmOfRun.
Implicit Types (sv : Server.State) (st : Db.State).

Lemma access_stamped now stamp id st :
  prototypeStamped st = true →
  prototypeStamped (access now stamp id st).1 = true.
Proof.
  intros Hs. unfold access. destruct (dbCache st !! id).
  - case_bool_decide; cbn [fst]; [done|].
    by rewrite prototypeStamped_bufferedSave.
  - destruct (inherited (prototypeStamped st) id); cbn [fst]; [done| |done].
    rewrite prototypeStamped_bufferedSave. cbn. by rewrite Hs.
Qed.

(** Once [Object.prototype.lastAccessed] is assigned it stays. *)
Lemma step_stamped clk ev sv :
  prototypeStamped (db sv) = true →
  prototypeStamped (db (step clk ev sv).1) = true.
Proof.
  intros Hs. destruct ev as [ip url nid|gid|gid| |]; cbn [step].
  - destruct (rateLimiter _ (read1 clk) (read2 clk) ip (rateLimitStore sv))
      as [store' []]; cbn [fst db]; [|done|done].
    unfold shorten. case_bool_decide; cbn [fst]; [done|].
    by rewrite prototypeStamped_bufferedSave.
  - cbn [fst db]. rewrite getId_state. by apply access_stamped.
  - cbn [fst db]. rewrite getStats_state. by apply access_stamped.
  - cbn [fst db]. unfold recycle. cbv zeta.
    destruct (foldl _ _ _) as [c []]; cbn [fst snd]; [|done].
    by rewrite prototypeStamped_bufferedSave.
  - cbn [fst db]. by rewrite prototypeStamped_runTimers.
Qed.

Lemma run_stamped evs : ∀ sv,
  prototypeStamped (db sv) = true →
  prototypeStamped (db (run evs sv).1) = true.
Proof.
  induction evs as [|[clk ev] evs IH]; intros sv Hs; [done|].
  cbn [run fst]. by apply IH, step_stamped.
Qed.

(** A run that ends with the prototype as it started has not changed it on
    the way. *)
Lemma run_stamped_first clk ev evs sv :
  prototypeStamped (db (run ((clk, ev) :: evs) sv).1) = prototypeStamped (db sv) →
  prototypeStamped (db (step clk ev sv).1) = prototypeStamped (db sv).
Proof.
  cbn [run fst]. intros Hend.
  destruct (prototypeStamped (db sv)) eqn:Hs; [by apply step_stamped|].
  destruct (prototypeStamped (db (step clk ev sv).1)) eqn:Hs1; [|done].
  by rewrite (run_stamped evs _ Hs1) in Hend.
Qed.

End RealmOfRun.

(** X4: over any run of the process that leaves [Object.prototype] as it
    found it, the limiter sees every [POST /shorten], whether its body is
    valid or not, and nothing else: its store after the run is the result
    of the limiter's calls for the posts of the run. *)
Theorem limiter_counts_every_post (evs : list (Clock * Event))
    (sv : Server.State) :
  prototypeStamped (db (run evs sv).1) = prototypeStamped (db sv) →
  rateLimitStore (run evs sv).1
  = (limiterRun (prototypeStamped (db sv)) (postCalls evs)
                (rateLimitStore sv)).1.
Proof.
  revert sv. induction evs as [|[clk ev] evs IH]; intros sv Hend; [done|].
  pose proof (run_stamped_first _ _ _ _ Hend) as Hs1.
  cbn [run fst] in *. rewrite IH by congruence. rewrite Hs1.
  unfold postCalls. cbn [omap list_omap fst snd].
  destruct ev as [ip url nid|gid|gid| |];
    cbn [step fst snd rateLimitStore limiterRun]; try done.
  by destruct (rateLimiter _ (read1 clk) (read2 clk) ip (rateLimitStore sv))
    as [store' []].
Qed.

Lemma limiter_counts_every_post_witness :
  rateLimitStore
    (run [(instant 1000, PostShorten "10.0.0.1" "" "abc123");
          (instant 1100, GetId "abc123");
          (mkClock 1200 1201 1202 1203,
           PostShorten "10.0.0.1" "https://example.com" "xyz789")]
         Server.initial).1
  = (limiterRun (prototypeStamped (db Server.initial))
       (postCalls [(instant 1000, PostShorten "10.0.0.1" "" "abc123");
                   (instant 1100, GetId "abc123");
                   (mkClock 1200 1201 1202 1203,
                    PostShorten "10.0.0.1" "https://example.com" "xyz789")])
       (rateLimitStore Server.initial)).1.
Proof.
  apply limiter_counts_every_post. vm_compute. reflexivity.
Defined.

(** X5: a [POST /shorten] is answered 429 exactly when the limiter refuses
    it, and a refused post changes nothing: no entry, no call of
    [bufferedSave], no change of any window. *)
Theorem refused_post_changes_nothing (clk : Clock) (ip url id : string)
    (sv : Server.State) :
  ((step clk (PostShorten ip url id) sv).2 = Some TooMany429
   ↔ (rateLimiter (prototypeStamped (db sv)) (read1 clk) (read2 clk) ip
                  (rateLimitStore sv)).2 = Status429)
  ∧ ((step clk (PostShorten ip url id) sv).2 = Some TooMany429 →
     (step clk (PostShorten ip url id) sv).1 = sv).
Proof.
  cbn [step].
  destruct (rateLimiter_cases (prototypeStamped (db sv)) (read1 clk)
              (read2 clk) ip (rateLimitStore sv))
    as [[_ ->]|[(w & Hw & _ & [[_ ->]|[_ ->]])|(_ & [[_ ->]|[_ ->]])]];
    cbn [fst snd].
  - unfold shorten. case_bool_decide; cbn [snd]; split; (split || idtac); done.
  - unfold shorten. case_bool_decide; cbn [snd]; split; (split || idtac); done.
  - split; [done|]. intros _. by destruct sv.
  - unfold shorten. case_bool_decide; cbn [snd]; split; (split || idtac); done.
  - split; [split; done|done].
Qed.

Lemma refused_post_changes_nothing_witness :
  (step (instant 10) (PostShorten "10.0.0.1" "https://example.com" "abc123")
        (mkServer Db.initial {["10.0.0.1" := mkWindow 5 0]})).1
  = mkServer Db.initial {["10.0.0.1" := mkWindow 5 0]}.
Proof.
  destruct (refused_post_changes_nothing (instant 10) "10.0.0.1"
              "https://example.com" "abc123"
              (mkServer Db.initial {["10.0.0.1" := mkWindow 5 0]}))
    as [_ H].
  apply H. vm_compute. reflexivity.
Defined.

(** * Further properties of the cache and the handlers *)

Section CacheMore.
Implicit Types (st : Db.State) (id : string) (e : Entry) (m : gmap string Entry).

Lemma accesses_hit id ts : ∀ st e,
  dbCache st !! id = Some e →
  Forall (λ t, t <= expires e) ts →
  dbCache (accesses id ts st)
  = <[id := mkEntry (originalUrl e) (created e) (expires e)
                    (default (lastAccessed e) (last ts))
                    (clicks e + Z.of_nat (length ts))]> (dbCache st).
Proof.
  unfold accesses. induction ts as [|t ts IH]; intros st e He Hts.
  - cbn. rewrite Z.add_0_r. destruct e. by rewrite insert_id.
  - apply Forall_cons in Hts as [Ht Hts]. cbn [foldl].
    rewrite (access_hit _ _ _ _ e) by done. cbn [fst].
    rewrite (IH _ (touch t e)).
    + rewrite dbCache_bufferedSave. cbn [setCache dbCache touch originalUrl
        created expires lastAccessed clicks length].
      rewrite insert_insert_eq. f_equal. f_equal.
      * rewrite last_cons. by destruct (last ts).
      * lia.
    + rewrite dbCache_bufferedSave. cbn [setCache dbCache].
      by rewrite lookup_insert_eq.
    + done.
Qed.

(** The loop of [recycle] over the entries of the cache, in any order. *)
Lemma recycle_loop_any_order now m l :
  l ≡ₚ map_to_list m →
  foldl (recycleStep now) (m, false) l
  = (filter (λ kv, live now kv.2) m,
     bool_decide (¬ map_Forall (λ _ e, live now e) m)).
Proof.
  intros Hl.
  assert (Hin : ∀ k e, (k, e) ∈ l ↔ m !! k = Some e).
  { intros k e. by rewrite Hl, elem_of_map_to_list. }
  destruct (foldl (recycleStep now) (m, false) l) as [c b] eqn:Hf. f_equal.
  - assert (Hc : c = (foldl (recycleStep now) (m, false) l).1) by (by rewrite Hf).
    rewrite Hc. apply map_eq. intros k.
    destruct (m !! k) as [e|] eqn:Hk.
    + destruct (stale now e) eqn:Hs.
      * rewrite (recycle_loop_gone now _ _ k e); [|by apply Hin|done].
        symmetry. apply map_lookup_filter_None. right. intros e' He'.
        cbn [snd]. rewrite He' in Hk. injection Hk as ->.
        by apply stale_not_live.
      * rewrite recycle_loop_kept; cbn [fst].
        -- rewrite Hk. symmetry. apply map_lookup_filter_Some.
           split; [done|]. by apply stale_live.
        -- intros e' He'%Hin. congruence.
    + rewrite recycle_loop_kept; cbn [fst].
      * rewrite Hk. symmetry. apply map_lookup_filter_None. by left.
      * intros e' He'%Hin. congruence.
  - assert (Hb : b = (foldl (recycleStep now) (m, false) l).2) by (by rewrite Hf).
    rewrite Hb, recycle_loop_changed. cbn [snd orb]. apply bool_decide_ext.
    rewrite Exists_exists. split.
    + intros ([k e] & Hke%Hin & Hs) Hall. cbn [snd] in Hs.
      apply stale_not_live in Hs. apply Hs. by eapply Hall.
    + intros (k & e & Hk & Hs)%map_not_Forall; [|apply _].
      exists (k, e). split; [by apply Hin|]. by apply stale_not_live.
Qed.

Lemma recycle_all_live now st :
  map_Forall (λ _ e, live now e) (dbCache st) →
  recycle now st = st.
Proof.
  intros Hall. unfold recycle. cbv zeta.
  rewrite (recycle_loop_any_order now (dbCache st)) by done. cbn [fst snd].
  rewrite bool_decide_eq_false_2 by tauto.
  rewrite map_filter_id; [by destruct st|].
  intros k e He. by apply (Hall k).
Qed.

End CacheMore.



(** X7: the click counter counts the accesses: after any number of accesses
    to a record, none of them after its expiry and however far apart, the
    record has that many more clicks, was last accessed at the last of them,
    has the url, creation and expiry it had, and no other record changed. *)
Theorem clicks_count_accesses (id : string) (ts : list Z) (st : Db.State)
    (e : Entry) :
  dbCache st !! id = Some e →
  Forall (λ t, t <= expires e) ts →
  dbCache (accesses id ts st)
  = <[id := mkEntry (originalUrl e) (created e) (expires e)
                    (default (lastAccessed e) (last ts))
                    (clicks e + Z.of_nat (length ts))]> (dbCache st).
Proof. apply accesses_hit. Qed.

Lemma clicks_count_accesses_witness :
  dbCache (accesses "abc123" [5; 300000000; 604800000] sampleState)
  = <["abc123" := mkEntry "https://example.com" 0 EXPIRY_MS 604800000 3]>
      (dbCache sampleState).
Proof.
  apply (clicks_count_accesses "abc123" [5; 300000000; 604800000] sampleState
           sampleEntry).
  - reflexivity.
  - unfold sampleEntry, EXPIRY_MS. repeat constructor; simpl; lia.
Defined.

(** X8: an access keeps a record from the sweeper for [LAST_ACCESS_LIMIT]:
    however long the record had been idle before, a sweep that runs within
    [LAST_ACCESS_LIMIT] of an access, and not after the expiry, keeps the
    record as the access left it. *)
Theorem access_defers_sweep (t t' : Z) (id : string) (st : Db.State)
    (e : Entry) :
  dbCache st !! id = Some e →
  t <= expires e →
  t' <= expires e →
  t' - t <= LAST_ACCESS_LIMIT →
  dbCache (recycle t' (access t t id st).1) !! id
  = Some (mkEntry (originalUrl e) (created e) (expires e) t (clicks e + 1)).
Proof.
  intros He Ht Ht' Hidle. rewrite recycle_cache.
  apply map_lookup_filter_Some. split.
  - rewrite (access_hit _ _ _ _ e) by done. cbn [fst].
    rewrite dbCache_bufferedSave. cbn [setCache dbCache].
    by rewrite lookup_insert_eq.
  - unfold live. cbn [snd expires lastAccessed]. lia.
Qed.

Lemma access_defers_sweep_witness :
  dbCache (recycle 500000000 (access 259200001 259200001 "abc123" sampleState).1)
    !! "abc123"
  = Some (mkEntry "https://example.com" 0 EXPIRY_MS 259200001 1).
Proof.
  apply (access_defers_sweep 259200001 500000000 "abc123" sampleState
           sampleEntry).
  - reflexivity.
  - unfold sampleEntry, EXPIRY_MS. simpl. lia.
  - unfold sampleEntry, EXPIRY_MS. simpl. lia.
  - unfold LAST_ACCESS_LIMIT. lia.
Defined.

(** X9: after a sweep every record left is live at the instant of the
    sweep, and a second sweep at that instant does nothing: it changes no
    part of the state and does not call [bufferedSave]. *)
Theorem sweep_settles (now : Z) (st : Db.State) :
  map_Forall (λ _ e, live now e) (dbCache (recycle now st))
  ∧ recycle now (recycle now st) = recycle now st.
Proof.
  assert (H : map_Forall (λ _ e, live now e) (dbCache (recycle now st))).
  { rewrite recycle_cache. intros k e [_ Hl]%map_lookup_filter_Some. done. }
  split; [done|]. by apply recycle_all_live.
Qed.

(** X10: the outcome of the sweep does not depend on the order in which the
    loop visits the entries: over any enumeration of the cache, the loop
    leaves the live entries and sets [changed] iff some entry was not
    live. *)
Theorem sweep_order_irrelevant (now : Z) (m : gmap string Entry)
    (l : list (string * Entry)) :
  l ≡ₚ map_to_list m →
  foldl (recycleStep now) (m, false) l
  = (filter (λ kv, live now kv.2) m,
     bool_decide (¬ map_Forall (λ _ e, live now e) m)).
Proof. apply recycle_loop_any_order. Qed.

Lemma sweep_order_irrelevant_witness :
  foldl (recycleStep 259200001) (sampleCache, false)
        (reverse (map_to_list sampleCache))
  = (filter (λ kv, live 259200001 kv.2) sampleCache,
     bool_decide (¬ map_Forall (λ _ e, live 259200001 e) sampleCache)).
Proof.
  apply (sweep_order_irrelevant 259200001 sampleCache).
  apply reverse_Permutation.
Defined.

(** * Further properties of the process *)

Section ProcessMore.
Implicit Types (sv : Server.State) (st : Db.State) (id : string) (e : Entry).

Lemma step_sweptAt s clk ev sv :
  s <= read1 clk → inOrder clk →
  sweptAt s (dbCache (db sv)) →
  sweptAt s (dbCache (db (step clk ev sv).1)).
Proof.
  intros Hs (H12 & H23 & H34) Hinv id e' H.
  apply step_lookup in H as [H|[(e & H & ->)|(_ & Hc & Hl & Hx)]].
  - by apply (Hinv id).
  - destruct (Hinv _ _ H) as [Hi Hx]. unfold touch, LAST_ACCESS_LIMIT in *.
    cbn [lastAccessed expires]. lia.
  - unfold LAST_ACCESS_LIMIT, EXPIRY_MS in *. lia.
Qed.

Lemma run_sweptAt s evs : ∀ sv,
  Forall (λ tev, s <= read1 tev.1 ∧ inOrder tev.1) evs →
  sweptAt s (dbCache (db sv)) →
  sweptAt s (dbCache (db (run evs sv).1)).
Proof.
  induction evs as [|[t ev] evs IH]; intros sv Hall Hinv; [done|].
  apply Forall_cons in Hall as [[Ht Hord] Hall]. cbn [run fst].
  apply IH; [done|]. by apply step_sweptAt.
Qed.

Lemma awaitingFlush_bufferedSave T F0 c0 now st st0 :
  now + FLUSH_DELAY_MS <= T →
  saveTimer st0 = saveTimer st → timers st0 = timers st →
  dbFile st0 = dbFile st → saveCalls st0 = saveCalls st →
  awaitingFlush T F0 c0 st →
  awaitingFlush T F0 c0 (bufferedSave now st0).
Proof.
  intros Hnow Hs Ht Hf Hc (Hf0 & Hti & Hm).
  unfold awaitingFlush, timerInv, bufferedSave in *. rewrite Hs.
  destruct (saveTimer st) as [due|];
    cbn [dbFile timers saveTimer saveCalls]; rewrite ?Hs, ?Ht, ?Hf, ?Hc.
  - split; [done|]. split; [done|]. lia.
  - rewrite Hti. split; [done|]. split; [done|]. lia.
Qed.

Lemma access_awaitingFlush T F0 c0 now stamp id st :
  now + FLUSH_DELAY_MS <= T →
  awaitingFlush T F0 c0 st →
  awaitingFlush T F0 c0 (access now stamp id st).1.
Proof.
  intros Hnow Hinv. unfold access. destruct (dbCache st !! id).
  - case_bool_decide; cbn [fst]; [done|].
    by apply (awaitingFlush_bufferedSave _ _ _ _ st).
  - destruct (inherited (prototypeStamped st) id); cbn [fst]; [done| |done].
    by apply (awaitingFlush_bufferedSave _ _ _ _ st).
Qed.

Lemma step_awaitingFlush T F0 c0 clk ev sv :
  ev ≠ Timers → inOrder clk → read4 clk + FLUSH_DELAY_MS <= T →
  awaitingFlush T F0 c0 (db sv) →
  awaitingFlush T F0 c0 (db (step clk ev sv).1).
Proof.
  intros Hev (H12 & H23 & H34) Hnow Hinv.
  destruct ev as [ip url nid|gid|gid| |]; cbn [step]; [| | | |done].
  - destruct (rateLimiter _ (read1 clk) (read2 clk) ip (rateLimitStore sv))
      as [store' []]; cbn [fst db]; [|done|done].
    unfold shorten. case_bool_decide; cbn [fst]; [done|].
    by apply (awaitingFlush_bufferedSave _ _ _ _ (db sv)).
  - cbn [fst db]. rewrite getId_state. apply access_awaitingFlush; [lia|done].
  - cbn [fst db]. rewrite getStats_state.
    apply access_awaitingFlush; [lia|done].
  - cbn [fst db]. unfold recycle. cbv zeta.
    destruct (foldl _ _ _) as [c []]; cbn [fst snd]; [|done].
    apply (awaitingFlush_bufferedSave _ _ _ _ (db sv)); (done || lia).
Qed.

Lemma run_awaitingFlush T F0 c0 evs : ∀ sv,
  Forall (λ tev, tev.2 ≠ Timers ∧ inOrder tev.1
                 ∧ read4 tev.1 + FLUSH_DELAY_MS <= T) evs →
  awaitingFlush T F0 c0 (db sv) →
  awaitingFlush T F0 c0 (db (run evs sv).1).
Proof.
  induction evs as [|[t ev] evs IH]; intros sv Hall Hinv; [done|].
  apply Forall_cons in Hall as [(Hev & Hord & Ht) Hall]. cbn [run fst].
  apply IH; [done|]. by apply step_awaitingFlush.
Qed.

Lemma runTimers_none now st : timers st = [] → runTimers now st = st.
Proof.
  destruct st as [c o ts f n p]. cbn [timers]. intros ->. reflexivity.
Qed.

Lemma saveTimer_bufferedSave now st : is_Some (saveTimer (bufferedSave now st)).
Proof. unfold bufferedSave. destruct (saveTimer st) eqn:H; cbn; by rewrite ?H. Qed.

Lemma quiescentInv_pending now st : is_Some (saveTimer st) → quiescentInv now st.
Proof. intros [d Hd] Hn. congruence. Qed.

Lemma quiescentInv_mono now now' st :
  now <= now' → quiescentInv now st → quiescentInv now' st.
Proof.
  intros Hle Hq Hn. destruct (Hq Hn) as [H1 H2]. split; [done|].
  intros id e He Hc. specialize (H2 _ _ He Hc). lia.
Qed.

Lemma access_quiescent now now' stamp id st :
  now <= now' → quiescentInv now st →
  quiescentInv now' (access now' stamp id st).1.
Proof.
  intros Hle Hq. unfold access.
  destruct (dbCache st !! id) as [e|] eqn:He; cbn [fst].
  2:{ destruct (inherited (prototypeStamped st) id); cbn [fst].
      - by apply (quiescentInv_mono now).
      - apply quiescentInv_pending, saveTimer_bufferedSave.
      - by apply (quiescentInv_mono now). }
  case_bool_decide as Hx; cbn [fst];
    [|apply quiescentInv_pending, saveTimer_bufferedSave].
  intros Hn. cbn [setCache saveTimer] in Hn. destruct (Hq Hn) as [H1 H2].
  unfold fileContent in *. cbn [setCache dbCache dbFile]. split.
  - intros id' e' [_ H]%lookup_delete_Some. by apply H1.
  - intros id' e' Hf Hc. apply lookup_delete_None in Hc as [<-|Hc].
    + apply H1 in He. rewrite He in Hf. injection Hf as <-. lia.
    + specialize (H2 _ _ Hf Hc). lia.
Qed.

Lemma step_quiescent now clk ev sv :
  now <= read1 clk → inOrder clk → timerInv (db sv) →
  quiescentInv now (db sv) →
  quiescentInv (read4 clk) (db (step clk ev sv).1).
Proof.
  intros Hle (H12 & H23 & H34) Ht Hq.
  assert (Hle4 : now <= read4 clk) by lia.
  destruct ev as [ip url nid|gid|gid| |]; cbn [step].
  - destruct (rateLimiter _ (read1 clk) (read2 clk) ip (rateLimitStore sv))
      as [store' []]; cbn [fst db];
      [|by apply (quiescentInv_mono now)|by apply (quiescentInv_mono now)].
    unfold shorten. case_bool_decide; cbn [fst];
      [by apply (quiescentInv_mono now)|].
    apply quiescentInv_pending, saveTimer_bufferedSave.
  - cbn [fst db]. rewrite getId_state.
    apply (quiescentInv_mono (read1 clk)); [lia|].
    by apply (access_quiescent now).
  - cbn [fst db]. rewrite getStats_state.
    apply (quiescentInv_mono (read1 clk)); [lia|].
    by apply (access_quiescent now).
  - cbn [fst db]. unfold recycle. cbv zeta.
    rewrite (recycle_loop_any_order (read1 clk) (dbCache (db sv))) by done.
    cbn [fst snd]. case_bool_decide as Hall.
    + apply quiescentInv_pending, saveTimer_bufferedSave.
    + rewrite map_filter_id.
      * assert (setCache (dbCache (db sv)) (db sv) = db sv) as ->
          by (by destruct (db sv)).
        by apply (quiescentInv_mono now).
      * intros k e He. by apply (Hall k).
  - cbn [fst db]. unfold timerInv in Ht.
    destruct (saveTimer (db sv)) as [due|] eqn:Hs.
    + rewrite (runTimers_single due) by done. case_bool_decide.
      * intros _. unfold fileContent. cbn.
        split; [done|]. intros id e He Hc. congruence.
      * apply quiescentInv_pending. cbn [saveTimer]. by rewrite Hs.
    + rewrite runTimers_none by done. by apply (quiescentInv_mono now).
Qed.

Lemma reachable_quiescent now sv : reachable now sv → quiescentInv now (db sv).
Proof.
  induction 1 as [now|now sv clk ev Hr IH Hle Hord].
  - intros _. split; [done|]. intros id e H. cbn in H.
    by rewrite lookup_empty in H.
  - apply (step_quiescent now); [done|done| |done].
    by destruct (reachable_inv _ _ Hr) as (_ & _ & ?).
Qed.

Lemma restart_cache sv :
  dbCache (db (restart sv)) = default ∅ (fileContent (db sv)).
Proof. unfold restart, loadDB. cbn [db]. by destruct (fileContent (db sv)). Qed.

Lemma restart_stamped sv : prototypeStamped (db (restart sv)) = false.
Proof. unfold restart, loadDB. cbn [db]. by destruct (fileContent (db sv)). Qed.

End ProcessMore.

(** X11: how stale a record can get between two sweeps: after a sweep that
    read the clock at [s], whatever turns the event loop takes from then
    on, every record in the cache was last accessed (or created) no earlier
    than [LAST_ACCESS_LIMIT] before [s], and had not expired at [s]. *)
Theorem idle_bounded_since_sweep (clk : Clock) (evs : list (Clock * Event))
    (sv : Server.State) (id : string) (e : Entry) :
  Forall (λ tev, read1 clk <= read1 tev.1 ∧ inOrder tev.1) evs →
  dbCache (db (run evs (step clk Sweep sv).1).1) !! id = Some e →
  read1 clk - lastAccessed e <= LAST_ACCESS_LIMIT ∧ read1 clk <= expires e.
Proof.
  intros Hall He.
  assert (Hs : sweptAt (read1 clk) (dbCache (db (step clk Sweep sv).1))).
  { cbn [step fst db]. rewrite recycle_cache.
    intros k x [_ Hl]%map_lookup_filter_Some. unfold live in Hl.
    cbn [snd] in Hl. lia. }
  by apply (run_sweptAt (read1 clk) evs _ Hall Hs id).
Qed.

Lemma idle_bounded_since_sweep_witness :
  read1 (instant 1000)
    - lastAccessed (mkEntry "https://example.com" 0 EXPIRY_MS 2001 1)
    <= LAST_ACCESS_LIMIT
  ∧ read1 (instant 1000)
    <= expires (mkEntry "https://example.com" 0 EXPIRY_MS 2001 1).
Proof.
  apply (idle_bounded_since_sweep (instant 1000)
           [(mkClock 2000 2001 2001 2001, GetId "abc123")]
           (mkServer sampleState ∅) "abc123").
  - repeat constructor; simpl; lia.
  - vm_compute. reflexivity.
Defined.

(** X12: what a [GET] serves in a reachable state.  A [GET /:id] that
    redirects to a url does so for a stored record with that url that was
    created before the request and has not reached its [expires], and
    [expires] is at least [created + EXPIRY_MS] and is what the record was
    created with: accesses never move it.  A [GET /:id] redirects without a
    target only for the name of a built-in member of [Object.prototype]
    under which nothing is stored.  The statistics of a stored record have
    [created <= now <= expires], [expires >= created + EXPIRY_MS] and
    [lastAccessed] equal to the clock read of the update. *)
Theorem served_within_expiry (now : Z) (clk : Clock) (sv : Server.State)
    (id : string) :
  reachable now sv →
  now <= read1 clk →
  inOrder clk →
  (∀ u, (step clk (GetId id) sv).2 = Some (Redirect302 u) →
        ∃ e, dbCache (db sv) !! id = Some e ∧ originalUrl e = u
             ∧ created e <= read1 clk <= expires e
             ∧ expires e >= created e + EXPIRY_MS
             ∧ expires <$> dbCache (db (step clk (GetId id) sv).1) !! id
               = Some (expires e))
  ∧ ((step clk (GetId id) sv).2 = Some RedirectUndefined302 →
     dbCache (db sv) !! id = None ∧ id ∈ builtinMembers)
  ∧ (∀ i u c cr ex la,
       (step clk (GetStats id) sv).2 = Some (Stats200 i u c cr ex la) →
       i = id ∧ ex >= cr + EXPIRY_MS ∧ cr <= read1 clk <= ex
       ∧ la = read2 clk).
Proof.
  intros Hr Hle (H12 & H23 & H34).
  destruct (reachable_inv _ _ Hr) as (Hc & _ & _).
  cbn [step snd fst db]. rewrite getId_state. unfold getId, getStats, access.
  destruct (dbCache (db sv) !! id) as [e|] eqn:He.
  - destruct (Hc _ _ He) as [[Hx Hla] Hnow].
    case_bool_decide as Hexp; cbn [fst snd]; [by repeat split|].
    split; [|split; [done|]].
    + intros u [= <-]. exists e. cbn [touch originalUrl].
      rewrite dbCache_bufferedSave. cbn [setCache dbCache].
      rewrite lookup_insert_eq. cbn [fmap option_fmap option_map touch expires].
      repeat split; (done || lia).
    + intros i u c cr ex la [= <- <- <- <- <- <-].
      cbn [touch originalUrl created expires lastAccessed]. repeat split; lia.
  - unfold inherited. case_bool_decide as Hb; cbn [fst snd]; [by repeat split|].
    destruct (prototypeStamped (db sv) && bool_decide (id = "lastAccessed"));
      cbn [fst snd]; by repeat split.
Qed.

Lemma served_within_expiry_witness :
  ∃ e, dbCache (db (step (mkClock 999 999 1000 1001)
                         (PostShorten "10.0.0.1" "https://example.com" "abc123")
                         Server.initial).1) !! "abc123" = Some e
       ∧ originalUrl e = "https://example.com"
       ∧ created e <= read1 (mkClock 5000 5001 5001 5001) <= expires e
       ∧ expires e >= created e + EXPIRY_MS
       ∧ expires <$> dbCache (db (step (mkClock 5000 5001 5001 5001)
                                       (GetId "abc123")
                                       (step (mkClock 999 999 1000 1001)
                                             (PostShorten "10.0.0.1"
                                                "https://example.com" "abc123")
                                             Server.initial).1).1) !! "abc123"
         = Some (expires e).
Proof.
  destruct (served_within_expiry 1001 (mkClock 5000 5001 5001 5001)
              (step (mkClock 999 999 1000 1001)
                    (PostShorten "10.0.0.1" "https://example.com" "abc123")
                    Server.initial).1 "abc123") as [H _].
  - apply (reach_step 0 _ (mkClock 999 999 1000 1001));
      [|simpl; lia|unfold inOrder; simpl; lia].
    apply reach_start.
  - simpl. lia.
  - unfold inOrder. simpl. lia.
  - apply (H "https://example.com"). vm_compute. reflexivity.
Defined.

(** X13: writes are coalesced: starting with no flush pending, however many
    requests and sweeps the event loop runs before its next timers phase,
    none of them writes the file; the timers phase, once the delay has
    elapsed, writes the file once with the cache as it then is if
    [bufferedSave] was called in between, and not at all otherwise; and no
    flush is pending after it. *)
Theorem mutations_coalesce (clkT : Clock) (evs : list (Clock * Event))
    (sv : Server.State) :
  timerInv (db sv) →
  saveTimer (db sv) = None →
  Forall (λ tev, tev.2 ≠ Timers ∧ inOrder tev.1
                 ∧ read4 tev.1 + FLUSH_DELAY_MS <= read1 clkT) evs →
  dbFile (db (run evs sv).1) = dbFile (db sv)
  ∧ dbFile (db (step clkT Timers (run evs sv).1).1)
    = (if decide (saveCalls (db (run evs sv).1) = saveCalls (db sv))
       then [] else [dbCache (db (run evs sv).1)]) ++ dbFile (db sv)
  ∧ saveTimer (db (step clkT Timers (run evs sv).1).1) = None
  ∧ timers (db (step clkT Timers (run evs sv).1).1) = [].
Proof.
  intros Ht Hs Hall.
  assert (H0 : awaitingFlush (read1 clkT) (dbFile (db sv)) (saveCalls (db sv))
                 (db sv)).
  { unfold awaitingFlush. by rewrite Hs. }
  destruct (run_awaitingFlush _ _ _ evs sv Hall H0) as (Hf & Ht' & Hs').
  split; [done|]. cbn [step fst db]. unfold timerInv in Ht'.
  destruct (saveTimer (db (run evs sv).1)) as [due|] eqn:Hd.
  - destruct Hs' as [Hdue Hcalls]. rewrite (runTimers_single due) by done.
    rewrite bool_decide_eq_true_2 by done. cbn [dbFile saveTimer timers].
    rewrite decide_False by lia. by rewrite Hf.
  - rewrite runTimers_none by done. rewrite decide_True by done.
    by rewrite Hf, Hd, Ht'.
Qed.

Lemma mutations_coalesce_witness :
  dbFile (db (step (instant 5000) Timers
                (run [(mkClock 1000 1000 1001 1002,
                       PostShorten "10.0.0.1" "https://example.com" "abc123");
                      (instant 1100, GetId "constructor");
                      (mkClock 1900 1901 1901 1901, GetStats "abc123");
                      (instant 4000, Sweep)] Server.initial).1).1)
  = (if decide (saveCalls (db (run
                  [(mkClock 1000 1000 1001 1002,
                    PostShorten "10.0.0.1" "https://example.com" "abc123");
                   (instant 1100, GetId "constructor");
                   (mkClock 1900 1901 1901 1901, GetStats "abc123");
                   (instant 4000, Sweep)] Server.initial).1)
                = saveCalls (db Server.initial))
     then []
     else [dbCache (db (run
                  [(mkClock 1000 1000 1001 1002,
                    PostShorten "10.0.0.1" "https://example.com" "abc123");
                   (instant 1100, GetId "constructor");
                   (mkClock 1900 1901 1901 1901, GetStats "abc123");
                   (instant 4000, Sweep)] Server.initial).1)])
    ++ dbFile (db Server.initial).
Proof.
  destruct (mutations_coalesce (instant 5000)
              [(mkClock 1000 1000 1001 1002,
                PostShorten "10.0.0.1" "https://example.com" "abc123");
               (instant 1100, GetId "constructor");
               (mkClock 1900 1901 1901 1901, GetStats "abc123");
               (instant 4000, Sweep)] Server.initial) as (_ & H & _).
  - reflexivity.
  - reflexivity.
  - unfold FLUSH_DELAY_MS, inOrder.
    repeat constructor; simpl; (discriminate || lia).
  - exact H.
Defined.

(** A [GET] on the name of an inherited member is one of the requests that
    call [bufferedSave]: from the initial state it alone makes the next
    timers phase write the file. *)
Example member_access_is_flushed :
  dbFile (db (step (instant 1200) Timers
                (step (instant 1000) (GetId "constructor") Server.initial).1).1)
  = [∅].
Proof. vm_compute. reflexivity. Qed.

(** X14: a restart while no flush is pending is not seen by the readers:
    every record of the cache is loaded back as it was, and at every later
    instant [GET /:id] and [GET /:id/stats] answer, for every id that names
    no inherited member, what they would have answered without the restart.
    (The file may still hold records that had expired and were dropped on
    access; they are loaded and are answered 404 like an absent id.) *)
Theorem restart_when_flushed (now t : Z) (sv : Server.State) (id : string) :
  reachable now sv →
  saveTimer (db sv) = None →
  now <= t →
  (∀ e, dbCache (db sv) !! id = Some e →
        dbCache (db (restart sv)) !! id = Some e)
  ∧ (plainKey id →
     (getId t t id (db (restart sv))).2 = (getId t t id (db sv)).2
     ∧ (getStats t t id (db (restart sv))).2 = (getStats t t id (db sv)).2).
Proof.
  intros Hr Hs Ht. destruct (reachable_quiescent _ _ Hr Hs) as [H1 H2].
  split; [intros e He; rewrite restart_cache; by apply H1|].
  intros Hp. unfold getId, getStats, access.
  rewrite restart_cache, restart_stamped, !plainKey_inherited by done.
  destruct (dbCache (db sv) !! id) as [e|] eqn:He.
  - rewrite (H1 _ _ He). by case_bool_decide.
  - destruct (default ∅ (fileContent (db sv)) !! id) as [e|] eqn:Hf; [|done].
    specialize (H2 _ _ Hf He). by rewrite bool_decide_eq_true_2 by lia.
Qed.

Lemma restart_when_flushed_witness :
  (getId 9000 9000 "abc123"
     (db (restart
            (run [(mkClock 1000 1000 1001 1002,
                   PostShorten "10.0.0.1" "https://example.com" "abc123");
                  (instant 1100, GetId "abc123"); (instant 1300, Timers)]
                 Server.initial).1))).2
  = (getId 9000 9000 "abc123"
       (db (run [(mkClock 1000 1000 1001 1002,
                  PostShorten "10.0.0.1" "https://example.com" "abc123");
                 (instant 1100, GetId "abc123"); (instant 1300, Timers)]
                Server.initial).1)).2.
Proof.
  destruct (restart_when_flushed 1300 9000
              (run [(mkClock 1000 1000 1001 1002,
                     PostShorten "10.0.0.1" "https://example.com" "abc123");
                    (instant 1100, GetId "abc123"); (instant 1300, Timers)]
                   Server.initial).1
              "abc123") as (_ & H).
  - cbn [run fst].
    apply (reach_step 1100 _ (instant 1300));
      [|simpl; lia|unfold inOrder; simpl; lia].
    apply (reach_step 1002 _ (instant 1100));
      [|simpl; lia|unfold inOrder; simpl; lia].
    apply (reach_step 0 _ (mkClock 1000 1000 1001 1002));
      [|simpl; lia|unfold inOrder; simpl; lia].
    apply reach_start.
  - vm_compute. reflexivity.
  - lia.
  - apply H, nanoid_plainKey. reflexivity.
Defined.

(** X17: the handlers at the name of a built-in member of
    [Object.prototype] under which nothing is stored: the inherited object
    is taken for a record that never expires, so [GET /:id] redirects
    without a target, [GET /:id/stats] answers statistics that hold only the
    id and the instant of the access, both call [bufferedSave], and the
    cache is left as it is. *)
Theorem member_access_is_served (now stamp : Z) (id : string) (st : Db.State) :
  dbCache st !! id = None →
  id ∈ builtinMembers →
  (getId now stamp id st).2 = RedirectUndefined302
  ∧ (getStats now stamp id st).2 = StatsOfMember200 id stamp
  ∧ (getStats now stamp id st).1 = (getId now stamp id st).1
  ∧ dbCache (getId now stamp id st).1 = dbCache st
  ∧ saveCalls (getId now stamp id st).1 = S (saveCalls st).
Proof.
  intros Hn Hb.
  assert (Hi : inherited (prototypeStamped st) id = ObjectMember).
  { unfold inherited. by rewrite bool_decide_eq_true_2. }
  unfold getId, getStats. rewrite access_member by done. cbn [fst snd].
  rewrite dbCache_bufferedSave, saveCalls_bufferedSave. done.
Qed.

Lemma member_access_is_served_witness :
  (getId 1000 1001 "constructor" Db.initial).2 = RedirectUndefined302
  ∧ (getStats 1000 1001 "constructor" Db.initial).2
    = StatsOfMember200 "constructor" 1001
  ∧ (getStats 1000 1001 "constructor" Db.initial).1
    = (getId 1000 1001 "constructor" Db.initial).1
  ∧ dbCache (getId 1000 1001 "constructor" Db.initial).1 = dbCache Db.initial
  ∧ saveCalls (getId 1000 1001 "constructor" Db.initial).1
    = S (saveCalls Db.initial).
Proof.
  apply (member_access_is_served 1000 1001 "constructor" Db.initial).
  - reflexivity.
  - unfold builtinMembers. rewrite elem_of_cons. by left.
Defined.
